(** * lossless_player: library indexer, cache and player engine

    A shallow embedding of [src/config.py] (MusicLibraryCache),
    [src/music_library.py] (MusicLibrary) and [src/player.py] (Player),
    followed by the properties of the specification that concern them.

    Conventions.
    - Python [int] is [Z]; [str] is [string] (one byte per character, so
      [lower] is the ASCII lower-casing); [float] readings of the clock and
      of track lengths are rationals ([Q]).
    - A Python [dict] is an association list in insertion order
      ([Py.dict_set] overwrites in place, as Python does).
    - [list.sort] and [sorted] are stable; they are modelled by a stable
      insertion sort ([Py.sorted]).
    - Code that can raise returns an [Outcome]. *)

From Stdlib Require Import ZArith String Ascii List Bool Lia QArith Qround.
From Stdlib Require Import Sorted Permutation DecimalString Lqa Qabs.
Import ListNotations.

Local Open Scope string_scope.
Local Open Scope list_scope.
Local Open Scope Z_scope.

(* ================================================================== *)
(** * Part I: the embedding                                            *)
(* ================================================================== *)

(** ** Python built-ins used by the sources *)

Module Py.

(** An exception of the given class was raised. *)
Inductive Exn :=
| TypeError | JSONDecodeError | UnicodeDecodeError | RuntimeFault.

Inductive Outcome (A : Type) :=
| Returned (a : A)
| Raised (e : Exn).
Arguments Returned {A} a.
Arguments Raised {A} e.

(** [c.lower()] on one character. *)
Definition lower_ascii (c : ascii) : ascii :=
  let n := nat_of_ascii c in
  if andb (Nat.leb 65 n) (Nat.leb n 90) then ascii_of_nat (n + 32) else c.

(** [s.lower()] *)
Fixpoint lower (s : string) : string :=
  match s with
  | EmptyString => EmptyString
  | String c r => String (lower_ascii c) (lower r)
  end.

(** [s.startswith(p)] *)
Definition startswith (s p : string) : bool := String.prefix p s.

(** [sub in s] *)
Fixpoint contains (sub s : string) : bool :=
  if String.prefix sub s then true
  else match s with
       | EmptyString => false
       | String _ r => contains sub r
       end.

(** [s.endswith(p)] *)
Fixpoint endswith (s p : string) : bool :=
  if String.eqb s p then true
  else match s with
       | EmptyString => false
       | String _ r => endswith r p
       end.

(** [s.endswith((p1, ..., pn))] *)
Definition endswith_any (s : string) (ps : list string) : bool :=
  existsb (endswith s) ps.

(** [s.split(sep)] for a one-character separator. *)
Fixpoint split (sep : ascii) (s : string) : list string :=
  match s with
  | EmptyString => [EmptyString]
  | String c r =>
      if Ascii.eqb c sep then EmptyString :: split sep r
      else match split sep r with
           | [] => [String c EmptyString]
           | w :: ws => String c w :: ws
           end
  end.

(** [s.replace(old, '')] for a non-empty [old]: the occurrences of [old]
    are removed from left to right, without overlap. [skip] counts the
    characters of a match that are still to be dropped. *)
Fixpoint remove_all_from (old : string) (skip : nat) (s : string) : string :=
  match s with
  | EmptyString => EmptyString
  | String c r =>
      match skip with
      | S k => remove_all_from old k r
      | O => if String.prefix old s
             then remove_all_from old (String.length old - 1) r
             else String c (remove_all_from old 0 r)
      end
  end.

Definition remove_all (old s : string) : string :=
  match old with
  | EmptyString => s
  | _ => remove_all_from old 0 s
  end.

(** [os.path.basename(p)]: what follows the last slash. *)
Definition basename (p : string) : string := last (split "/" p) "".

(** [os.path.join(a, b)] *)
Definition path_join (a b : string) : string :=
  if startswith b "/" then b
  else if orb (String.eqb a "") (endswith a "/") then String.append a b
  else String.append a (String.append "/" b).

(** Position of the last ["."] of [s], if any. *)
Fixpoint rfind_dot (s : string) : option nat :=
  match s with
  | EmptyString => None
  | String c r =>
      match rfind_dot r with
      | Some i => Some (S i)
      | None => if Ascii.eqb c "." then Some O else None
      end
  end.

Fixpoint all_dots (s : string) : bool :=
  match s with
  | EmptyString => true
  | String c r => andb (Ascii.eqb c ".") (all_dots r)
  end.

(** [os.path.splitext(name)[0]] for a name without a slash: the extension
    starts at the last dot, unless only dots come before it. *)
Definition splitext_root (name : string) : string :=
  match rfind_dot name with
  | Some i => if all_dots (String.substring 0 i name) then name
              else String.substring 0 i name
  | None => name
  end.

Definition is_space (c : ascii) : bool :=
  let n := nat_of_ascii c in
  orb (Nat.eqb n 32) (andb (Nat.leb 9 n) (Nat.leb n 13)).

Fixpoint lstrip (s : string) : string :=
  match s with
  | String c r => if is_space c then lstrip r else s
  | EmptyString => EmptyString
  end.

Fixpoint all_spaces (s : string) : bool :=
  match s with
  | EmptyString => true
  | String c r => andb (is_space c) (all_spaces r)
  end.

(** Decimal digits followed only by white space; [acc] is the value read
    so far and [seen] tells whether a digit was read. *)
Fixpoint digits_then_spaces (s : string) (acc : Z) (seen : bool) : option Z :=
  match s with
  | EmptyString => if seen then Some acc else None
  | String c r =>
      let n := nat_of_ascii c in
      if andb (Nat.leb 48 n) (Nat.leb n 57)
      then digits_then_spaces r (10 * acc + Z.of_nat (n - 48)) true
      else if andb seen (all_spaces s) then Some acc else None
  end.

(** [int(s)] for a [str]; [None] is [ValueError]. Digit separators
    ([_]) and non-ASCII digits are not modelled. *)
Definition int_of_str (s : string) : option Z :=
  match lstrip s with
  | String "-"%char r => option_map Z.opp (digits_then_spaces r 0 false)
  | String "+"%char r => digits_then_spaces r 0 false
  | r => digits_then_spaces r 0 false
  end.

Definition is_empty (s : string) : bool :=
  match s with EmptyString => true | _ => false end.

Definition Qlt_bool (a b : Q) : bool := negb (Qle_bool b a).

(** [l[-k]] for [1 <= k <= len(l)]. *)
Definition nth_from_end {A} (k : nat) (l : list A) (d : A) : A :=
  nth (length l - k) l d.

(** [str(n)] for an [int]. *)
Definition str_of_int (z : Z) : string :=
  NilZero.string_of_int (Z.to_int z).

(** [int(x)] for a [float]: truncation toward zero. *)
Definition int_of_float (q : Q) : Z :=
  if Qle_bool 0 q then Qfloor q else Qceiling q.

(** [max(0, min(100, v))] is written with [Z.max] and [Z.min]. *)

(** *** dict as an insertion-ordered association list *)

Definition dict (V : Type) := list (string * V).

Fixpoint dict_get {V} (d : dict V) (k : string) : option V :=
  match d with
  | [] => None
  | (k', v) :: r => if String.eqb k' k then Some v else dict_get r k
  end.

(** [k in d] *)
Definition dict_mem {V} (d : dict V) (k : string) : bool :=
  match dict_get d k with Some _ => true | None => false end.

(** [d[k] = v]: an existing key keeps its position. *)
Fixpoint dict_set {V} (d : dict V) (k : string) (v : V) : dict V :=
  match d with
  | [] => [(k, v)]
  | (k', v') :: r =>
      if String.eqb k' k then (k', v) :: r else (k', v') :: dict_set r k v
  end.

Definition dict_keys {V} (d : dict V) : list string := map fst d.
Definition dict_values {V} (d : dict V) : list V := map snd d.

(** [set.add]: a set of strings kept as a duplicate-free list. *)
Definition set_add (s : list string) (x : string) : list string :=
  if existsb (String.eqb x) s then s else s ++ [x].

(** *** stable sort by an integer key *)

Section Sorting.
Context {A : Type} (key : A -> Z).

Fixpoint insert_by (x : A) (l : list A) : list A :=
  match l with
  | [] => [x]
  | y :: r => if key x <=? key y then x :: l else y :: insert_by x r
  end.

(** [sorted(l, key=key)], also [l.sort(key=key)]. *)
Definition sorted (l : list A) : list A := fold_right insert_by [] l.
End Sorting.

(** *** Further built-ins *)

(** Exceptions raised by the code outside the classes of [Exn]. *)
Inductive Failure :=
| IndexError | KeyError | AttributeError | ValueError | OSError
| Propagated (e : Exn).

(** The result of a call that can raise any of them. *)
Inductive Attempt (A : Type) :=
| Done (a : A)
| Failed (e : Failure).
Arguments Done {A} a.
Arguments Failed {A} e.

(** White space for [str.strip]: the characters of ASCII for which
    [str.isspace] holds (tab to carriage return, the four separators
    [0x1c] to [0x1f], and the space). *)
Definition is_whitespace (c : ascii) : bool :=
  let n := nat_of_ascii c in
  orb (Nat.eqb n 32)
    (orb (andb (Nat.leb 9 n) (Nat.leb n 13))
         (andb (Nat.leb 28 n) (Nat.leb n 31))).

Fixpoint lstrip_whitespace (s : string) : string :=
  match s with
  | String c r => if is_whitespace c then lstrip_whitespace r else s
  | EmptyString => EmptyString
  end.

(** [s.rstrip()] *)
Fixpoint rstrip (s : string) : string :=
  match s with
  | EmptyString => EmptyString
  | String c r =>
      let r' := rstrip r in
      if andb (is_empty r') (is_whitespace c) then EmptyString
      else String c r'
  end.

(** [s.strip()] *)
Definition strip (s : string) : string := lstrip_whitespace (rstrip s).

Definition is_digit (c : ascii) : bool :=
  let n := nat_of_ascii c in andb (Nat.leb 48 n) (Nat.leb n 57).

Fixpoint all_digits (s : string) : bool :=
  match s with
  | EmptyString => true
  | String c r => andb (is_digit c) (all_digits r)
  end.

(** [s.isdigit()], for the decimal digits of ASCII. *)
Definition isdigit (s : string) : bool :=
  andb (negb (is_empty s)) (all_digits s).

End Py.

Import Py.

(** ** The built-in [hash] on [str]

    CPython (3.11 and later) hashes the bytes of a [str] with SipHash-1-3
    under a 128-bit key, [_Py_HashSecret], which is drawn at interpreter
    start-up: at random by default, or from [PYTHONHASHSEED] by a linear
    congruential generator. The model hashes one byte per character. *)

Module PyHash.

Definition mask64 : Z := 2 ^ 64 - 1.
Definition wrap64 (x : Z) : Z := Z.land x mask64.
Definition add64 (a b : Z) : Z := wrap64 (a + b).
Definition rotl64 (x : Z) (b : Z) : Z :=
  wrap64 (Z.lor (Z.shiftl x b) (Z.shiftr x (64 - b))).

Record SipState := mkSip { v0 : Z; v1 : Z; v2 : Z; v3 : Z }.

(** [HALF_ROUND(a,b,c,d,s,t)] returns the new [(a,b,c,d)]. *)
Definition half_round (a b c d s t : Z) : Z * Z * Z * Z :=
  let a := add64 a b in
  let c := add64 c d in
  let b := Z.lxor (rotl64 b s) a in
  let d := Z.lxor (rotl64 d t) c in
  let a := rotl64 a 32 in
  (a, b, c, d).

(** [SINGLE_ROUND(v0,v1,v2,v3)] *)
Definition single_round (st : SipState) : SipState :=
  let '(a0, a1, a2, a3) := half_round (v0 st) (v1 st) (v2 st) (v3 st) 13 16 in
  let '(b2, b1, b0, b3) := half_round a2 a1 a0 a3 17 21 in
  mkSip b0 b1 b2 b3.

(** Little-endian value of at most eight bytes. *)
Fixpoint le_bytes (bs : list Z) : Z :=
  match bs with
  | [] => 0
  | b :: r => Z.lor b (Z.shiftl (le_bytes r) 8)
  end.

Definition absorb (st : SipState) (m : Z) : SipState :=
  let st1 := single_round (mkSip (v0 st) (v1 st) (v2 st) (Z.lxor (v3 st) m)) in
  mkSip (Z.lxor (v0 st1) m) (v1 st1) (v2 st1) (v3 st1).

(** The loop over whole 8-byte words, then the tail; [fuel] bounds the
    number of words. *)
Fixpoint compress (fuel : nat) (st : SipState) (bs : list Z) (b : Z) : SipState :=
  match fuel with
  | O => st
  | S fuel' =>
      if (8 <=? length bs)%nat
      then compress fuel' (absorb st (le_bytes (firstn 8 bs))) (skipn 8 bs) b
      else absorb st (Z.lor b (le_bytes bs))
  end.

Definition siphash13 (k0 k1 : Z) (src : list Z) : Z :=
  let b := wrap64 (Z.shiftl (Z.of_nat (length src)) 56) in
  let st := mkSip (Z.lxor k0 0x736f6d6570736575)
                  (Z.lxor k1 0x646f72616e646f6d)
                  (Z.lxor k0 0x6c7967656e657261)
                  (Z.lxor k1 0x7465646279746573) in
  let st := compress (S (length src)) st src b in
  let st := mkSip (v0 st) (v1 st) (Z.lxor (v2 st) 0xff) (v3 st) in
  let st := single_round (single_round (single_round st)) in
  Z.lxor (Z.lxor (v0 st) (v1 st)) (Z.lxor (v2 st) (v3 st)).

(** The key of one interpreter process. *)
Record HashSecret := mkSecret { k0 : Z; k1 : Z }.

(** [lcg_urandom]: the bytes derived from a non-zero [PYTHONHASHSEED]. *)
Fixpoint lcg_urandom (n : nat) (x : Z) : list Z :=
  match n with
  | O => []
  | S n' =>
      let x := Z.land (x * 214013 + 2531011) (2 ^ 32 - 1) in
      Z.land (Z.shiftr x 16) 255 :: lcg_urandom n' x
  end.

Definition secret_of_seed (seed : Z) : HashSecret :=
  if seed =? 0 then mkSecret 0 0
  else
    let bytes := lcg_urandom 16 seed in
    mkSecret (le_bytes (firstn 8 bytes)) (le_bytes (skipn 8 bytes)).

Definition bytes_of_string (s : string) : list Z :=
  map (fun c => Z.of_nat (nat_of_ascii c)) (list_ascii_of_string s).

(** [Py_hash_t] is a signed 64-bit integer. *)
Definition to_signed64 (x : Z) : Z :=
  if x <? 2 ^ 63 then x else x - 2 ^ 64.

(** [hash(s)] in a process whose key is [secret]. *)
Definition hash (secret : HashSecret) (s : string) : Z :=
  match s with
  | EmptyString => 0
  | _ =>
      let x := to_signed64 (siphash13 (k0 secret) (k1 secret) (bytes_of_string s)) in
      if x =? -1 then -2 else x
  end.

End PyHash.

(** ** The [json] module, as far as the cache uses it

    A text file is seen as its sequence of JSON lexemes: white space and
    string escapes are left out. [json.dump] writes the chunks of its
    output to the file as it produces them, so the text written before an
    error stays in the file. *)

Module Json.

(** The Python objects the cache handles. *)
#[warnings="-register-all"] Inductive value :=
| PNone
| PBool (b : bool)
| PInt (z : Z)
| PStr (s : string)
| PList (l : list value)
| PDict (d : list (string * value))
| PSet (l : list value).

Inductive token :=
| TNull | TTrue | TFalse
| TNumber (z : Z)
| TString (s : string)
| TLBracket | TRBracket | TLBrace | TRBrace | TComma | TColon
| TInvalid.   (* text that is no JSON lexeme *)

Section Encoder.
(** The encoder of the values inside a container. *)
Variable encode : value -> list token * bool.

(** [_iterencode_list] after the opening bracket: the items, each but the
    first after a comma, then the closing bracket. An item that cannot be
    encoded ends the output. *)
Fixpoint encode_items (first : bool) (l : list value) : list token * bool :=
  match l with
  | [] => ([TRBracket], true)
  | x :: r =>
      let sep := if first then [] else [TComma] in
      let (tx, okx) := encode x in
      if okx
      then let (tr, okr) := encode_items false r in (sep ++ tx ++ tr, okr)
      else (sep ++ tx, false)
  end.

(** [_iterencode_dict] after the opening brace. *)
Fixpoint encode_members (first : bool) (d : list (string * value))
    : list token * bool :=
  match d with
  | [] => ([TRBrace], true)
  | (k, x) :: r =>
      let sep := if first then [] else [TComma] in
      let (tx, okx) := encode x in
      if okx
      then let (tr, okr) := encode_members false r in
           (sep ++ TString k :: TColon :: tx ++ tr, okr)
      else (sep ++ TString k :: TColon :: tx, false)
  end.
End Encoder.

(** [JSONEncoder.iterencode]: the lexemes produced, and whether the
    encoder completed ([false]: [TypeError], the object is not JSON
    serializable). *)
Fixpoint iterencode (o : value) : list token * bool :=
  match o with
  | PNone => ([TNull], true)
  | PBool true => ([TTrue], true)
  | PBool false => ([TFalse], true)
  | PInt z => ([TNumber z], true)
  | PStr s => ([TString s], true)
  | PList l =>
      let (ts, ok) := encode_items iterencode true l in (TLBracket :: ts, ok)
  | PDict d =>
      let (ts, ok) := encode_members iterencode true d in (TLBrace :: ts, ok)
  | PSet _ => ([], false)
  end.

(** A JSON object becomes a [dict]: a repeated key keeps its first
    position and its last value. *)
Definition dict_of_pairs (kvs : list (string * value)) : list (string * value) :=
  fold_left (fun d kv => dict_set d (fst kv) (snd kv)) kvs [].

(** The decoder, by recursive descent; [fuel] bounds the depth of the
    calls. [parse_elems] reads [value (, value)* ]] and [parse_members]
    reads [string : value (, string : value)* }]. *)
Fixpoint parse_value (fuel : nat) (ts : list token)
    : option (value * list token) :=
  match fuel with
  | O => None
  | S n =>
      match ts with
      | TNull :: r => Some (PNone, r)
      | TTrue :: r => Some (PBool true, r)
      | TFalse :: r => Some (PBool false, r)
      | TNumber z :: r => Some (PInt z, r)
      | TString s :: r => Some (PStr s, r)
      | TLBracket :: TRBracket :: r => Some (PList [], r)
      | TLBracket :: r =>
          match parse_elems n r with
          | Some (vs, r') => Some (PList vs, r')
          | None => None
          end
      | TLBrace :: TRBrace :: r => Some (PDict [], r)
      | TLBrace :: r =>
          match parse_members n r with
          | Some (kvs, r') => Some (PDict (dict_of_pairs kvs), r')
          | None => None
          end
      | _ => None
      end
  end
with parse_elems (fuel : nat) (ts : list token)
    : option (list value * list token) :=
  match fuel with
  | O => None
  | S n =>
      match parse_value n ts with
      | Some (v, TComma :: r) =>
          match parse_elems n r with
          | Some (vs, r') => Some (v :: vs, r')
          | None => None
          end
      | Some (v, TRBracket :: r) => Some ([v], r)
      | _ => None
      end
  end
with parse_members (fuel : nat) (ts : list token)
    : option (list (string * value) * list token) :=
  match fuel with
  | O => None
  | S n =>
      match ts with
      | TString k :: TColon :: r =>
          match parse_value n r with
          | Some (v, TComma :: r') =>
              match parse_members n r' with
              | Some (kvs, r'') => Some ((k, v) :: kvs, r'')
              | None => None
              end
          | Some (v, TRBrace :: r') => Some ([(k, v)], r')
          | _ => None
          end
      | _ => None
      end
  end.

(** How many brackets and braces a text leaves open. *)
Definition opens (t : token) : Z :=
  match t with
  | TLBracket | TLBrace => 1
  | TRBracket | TRBrace => -1
  | _ => 0
  end.

Fixpoint depth (ts : list token) : Z :=
  match ts with
  | [] => 0
  | t :: r => opens t + depth r
  end.

(** [json.loads] on the text of a file; [None] is [JSONDecodeError]
    (also raised for text that follows the document). *)
Definition loads (ts : list token) : option value :=
  match parse_value (S (length ts)) ts with
  | Some (v, []) => Some v
  | _ => None
  end.

End Json.

(** ** src/config.py *)

Module Config.

Definition MOUNT_POINT : string := "/home/jay/music_server".

(** The cache file [LIBRARY_CACHE]: a text, or bytes that do not decode
    in the encoding of [open]. *)
Inductive FileContent :=
| Text (ts : list Json.token)
| Undecodable.

(** [None]: the file does not exist. *)
Definition CacheFile := option FileContent.

(** [ALLOWED_TELEGRAM_USERS], from the value of the environment variable
    (the empty string when it is not set):
    [[int(id.strip()) for id in value.split(',') if id.strip()]].
    An [int] that fails is a [ValueError] while the module is imported. *)
Fixpoint ints_of (pieces : list string) : Attempt (list Z) :=
  match pieces with
  | [] => Done []
  | id :: rest =>
      if is_empty (strip id) then ints_of rest
      else
        match int_of_str (strip id) with
        | None => Failed ValueError
        | Some n =>
            match ints_of rest with
            | Done ids => Done (n :: ids)
            | Failed e => Failed e
            end
        end
  end.

Definition ALLOWED_TELEGRAM_USERS (value : string) : Attempt (list Z) :=
  ints_of (split "," value).

End Config.

Module MusicLibraryCache.
Import Json Config.

Definition load (f : CacheFile) : Outcome value :=
  match f with
  | None => Returned (PDict [])
  | Some Undecodable => Raised UnicodeDecodeError
  | Some (Text ts) =>
      match loads ts with
      | Some v => Returned v
      | None => Returned (PDict [])     (* except json.JSONDecodeError *)
      end
  end.

(** [save] returns nothing; the result tells whether an error was logged
    and what the file holds afterwards. [open(.., 'w')] empties the file
    before [json.dump] writes to it. *)
Definition save (library : value) (f : CacheFile) : bool * CacheFile :=
  let (ts, ok) := iterencode library in
  (negb ok, Some (Text ts)).

End MusicLibraryCache.

(** ** src/music_library.py *)

Module MusicLibrary.
Import Config.

(** A track dictionary [track_info]. *)
Record Track := mkTrack {
  t_path : string;
  t_filename : string;
  t_size : Z;
  t_album : string;
  t_artist : string;
  t_title : string;
  t_track_number : Z;
  t_duration : Z
}.

(** An entry of [self.albums]. *)
Record Album := mkAlbum {
  al_name : string;
  al_artist : string;
  al_tracks : list string;
  al_track_count : Z
}.

(** An entry of [self.artists]; ['albums'] is a Python [set]. *)
Record Artist := mkArtist {
  ar_name : string;
  ar_albums : list string;
  ar_tracks : list string
}.

(** The fields of a [MusicLibrary] object. *)
Record State := mkState {
  library : dict Track;
  albums : dict Album;
  artists : dict Artist;
  indexed_time : Z
}.

(** [__init__] before [load_cache]. *)
Definition empty : State := mkState [] [] [] 0.

(** *** What mutagen reports for a file *)

(** Tags map a key to its list of values. *)
Definition Tags := dict (list string).

Inductive Audio :=
| FLAC (tags : Tags) (info_length : Q)
| MP3 (easyid3 : option Tags) (info_length : Q)  (* [None]: [EasyID3] raised *)
| OtherAudio (info_length : option Q).           (* [None]: no [length] *)

Inductive MutagenResult :=
| MutagenRaised
| MutagenNone
| MutagenAudio (audio : Audio).

(** What one call of [index_library] finds around it. *)
Record Env := mkEnv {
  mount_server : bool;                   (* NetworkManager.mount_server() *)
  time_at_check : Q;                     (* time.time() in the freshness test *)
  walk : list (string * list string);    (* os.walk(MOUNT_POINT): root, files *)
  MutagenFile : string -> MutagenResult;
  getsize : string -> option Z;          (* [None]: OSError *)
  hash_secret : PyHash.HashSecret;       (* the key of this process *)
  organize_fault : option nat;           (* an unexpected exception strikes
                                            [_organize_library] at this step *)
  time_at_end : Q                        (* time.time() when the scan is over *)
}.

Definition set_album (t : Track) (v : string) : Track :=
  mkTrack (t_path t) (t_filename t) (t_size t) v (t_artist t) (t_title t)
    (t_track_number t) (t_duration t).
Definition set_artist (t : Track) (v : string) : Track :=
  mkTrack (t_path t) (t_filename t) (t_size t) (t_album t) v (t_title t)
    (t_track_number t) (t_duration t).
Definition set_title (t : Track) (v : string) : Track :=
  mkTrack (t_path t) (t_filename t) (t_size t) (t_album t) (t_artist t) v
    (t_track_number t) (t_duration t).
Definition set_track_number (t : Track) (v : Z) : Track :=
  mkTrack (t_path t) (t_filename t) (t_size t) (t_album t) (t_artist t)
    (t_title t) v (t_duration t).
Definition set_duration (t : Track) (v : Z) : Track :=
  mkTrack (t_path t) (t_filename t) (t_size t) (t_album t) (t_artist t)
    (t_title t) (t_track_number t) v.

(** [if key in tags: t[field] = tags[key][0]]; [None] is the
    [IndexError] of an empty value list. *)
Definition copy_tag (tags : Tags) (key : string)
    (set : Track -> string -> Track) (t : Track) : option Track :=
  match dict_get tags key with
  | None => Some t
  | Some [] => None
  | Some (v :: _) => Some (set t v)
  end.

(** The [tracknumber] tag, ["3"] or ["3/12"]; [ValueError] and
    [IndexError] are passed over. *)
Definition copy_track_number (tags : Tags) (t : Track) : Track :=
  match dict_get tags "tracknumber" with
  | Some (v :: _) =>
      match int_of_str (hd "" (split "/" v)) with
      | Some n => set_track_number t n
      | None => t
      end
  | _ => t
  end.

(** The branch for [FLAC]; [None]: an exception left for the handler of
    [_process_audio_file]. *)
Definition flac_tags (tags : Tags) (len : Q) (t : Track) : option Track :=
  match copy_tag tags "album" set_album t with
  | None => None
  | Some t =>
      match copy_tag tags "artist" set_artist t with
      | None => None
      | Some t =>
          match copy_tag tags "title" set_title t with
          | None => None
          | Some t =>
              Some (set_duration (copy_track_number tags t) (int_of_float len))
          end
      end
  end.

(** The branch for [MP3]: any exception among the tags falls back to the
    file name for the title, and keeps what was assigned before it. *)
Definition mp3_tags (easyid3 : option Tags) (len : Q) (t : Track) : Track :=
  let fallback t := set_title t (splitext_root (t_filename t)) in
  let t :=
    match easyid3 with
    | None => fallback t
    | Some id3 =>
        match copy_tag id3 "album" set_album t with
        | None => fallback t
        | Some t1 =>
            match copy_tag id3 "artist" set_artist t1 with
            | None => fallback t1
            | Some t2 =>
                match copy_tag id3 "title" set_title t2 with
                | None => fallback t2
                | Some t3 => copy_track_number id3 t3
                end
            end
        end
    end in
  set_duration t (int_of_float len).

Definition other_tags (len : option Q) (t : Track) : Track :=
  let t := set_title t (splitext_root (t_filename t)) in
  match len with
  | Some l => set_duration t (int_of_float l)
  | None => t
  end.

Definition extract_tags (audio : Audio) (t : Track) : option Track :=
  match audio with
  | FLAC tags len => flac_tags tags len t
  | MP3 id3 len => Some (mp3_tags id3 len t)
  | OtherAudio len => Some (other_tags len t)
  end.

(** "Use file structure for album/artist if tags are missing". *)
Definition path_fallback (file_path : string) (t : Track) : Track :=
  if orb (is_empty (t_album t)) (is_empty (t_artist t)) then
    let parts := split "/" (remove_all MOUNT_POINT file_path) in
    if (3 <=? length parts)%nat then
      let t := if is_empty (t_artist t)
               then set_artist t (nth_from_end 3 parts "") else t in
      let t := if is_empty (t_album t)
               then set_album t (nth_from_end 2 parts "") else t in
      t
    else t
  else t.

(** [str(hash(file_path))] *)
Definition track_id (secret : PyHash.HashSecret) (file_path : string) : string :=
  str_of_int (PyHash.hash secret file_path).

(** [_process_audio_file] catches every exception, so it only changes
    [self.library]. *)
Definition _process_audio_file (env : Env) (file_path : string)
    (library : dict Track) : dict Track :=
  let filename := basename file_path in
  if orb (startswith filename ".") (startswith filename "._") then library
  else
    match MutagenFile env file_path with
    | MutagenRaised => library
    | MutagenNone => library
    | MutagenAudio audio =>
        match getsize env file_path with
        | None => library
        | Some size =>
            let track_info :=
              mkTrack file_path (basename file_path) size "" "" "" 0 0 in
            match extract_tags audio track_info with
            | None => library
            | Some track_info =>
                let track_info := path_fallback file_path track_info in
                dict_set library (track_id (hash_secret env) file_path)
                  track_info
            end
        end
    end.

Definition supported_extensions : list string :=
  [".flac"; ".mp3"; ".wav"; ".aac"; ".m4a"; ".ogg"; ".alac"].

(** The body of the loop over the files of one directory. *)
Definition scan_file (env : Env) (root file : string)
    (library : dict Track) : dict Track :=
  if startswith file "._" then library
  else if endswith_any (lower file) supported_extensions
  then _process_audio_file env (path_join root file) library
  else library.

(** The walk over the mounted tree, from an empty [self.library]. *)
Definition scan (env : Env) : dict Track :=
  fold_left
    (fun library dir =>
       fold_left (fun library file => scan_file env (fst dir) file library)
         (snd dir) library)
    (walk env) [].

(** *** [_organize_library] *)

Definition album_key_of (t : Track) : string :=
  lower (String.append (t_artist t) (String.append " - " (t_album t))).

Definition artist_key_of (t : Track) : string := lower (t_artist t).

(** [d[k] = f(d[k])] for a key that is present. *)
Definition dict_modify {V} (d : dict V) (k : string) (f : V -> V) : dict V :=
  match dict_get d k with
  | Some v => dict_set d k (f v)
  | None => d
  end.

(** "Add to albums dictionary": the album of the track is created if it
    is new, then receives the track. *)
Definition add_to_albums (albums : dict Album) (track_id : string)
    (track : Track) : dict Album :=
  let album_key := album_key_of track in
  let albums :=
    if dict_mem albums album_key then albums
    else dict_set albums album_key
           (mkAlbum (t_album track) (t_artist track) [] 0) in
  dict_modify albums album_key
    (fun a => mkAlbum (al_name a) (al_artist a)
                (al_tracks a ++ [track_id]) (al_track_count a + 1)).

(** "Add to artists dictionary" *)
Definition add_to_artists (artists : dict Artist) (track_id : string)
    (track : Track) : dict Artist :=
  let album_key := album_key_of track in
  let artist_key := artist_key_of track in
  let artists :=
    if dict_mem artists artist_key then artists
    else dict_set artists artist_key (mkArtist (t_artist track) [] []) in
  dict_modify artists artist_key
    (fun a => mkArtist (ar_name a) (set_add (ar_albums a) album_key)
                (ar_tracks a ++ [track_id])).

(** One turn of the loop over [self.library.items()]. *)
Definition organize_track (st : dict Album * dict Artist)
    (item : string * Track) : dict Album * dict Artist :=
  (add_to_albums (fst st) (fst item) (snd item),
   add_to_artists (snd st) (fst item) (snd item)).

(** [self.library[track_id]['track_number']], the sort key. Every id of
    an album is a key of the library (see [lookup_discovered]). *)
Definition track_number_of (library : dict Track) (track_id : string) : Z :=
  match dict_get library track_id with
  | Some t => t_track_number t
  | None => 0
  end.

Definition sort_album (library : dict Track) (a : Album) : Album :=
  mkAlbum (al_name a) (al_artist a)
    (sorted (track_number_of library) (al_tracks a)) (al_track_count a).

Definition sort_albums (library : dict Track) (albums : dict Album) : dict Album :=
  map (fun ka => (fst ka, sort_album library (snd ka))) albums.

Definition _organize_library (s : State) : State :=
  let (albums, artists) :=
    fold_left organize_track (library s) (albums s, artists s) in
  mkState (library s) (sort_albums (library s) albums) artists (indexed_time s).

(** [_organize_library] cut short by an exception before turn [n] of its
    first loop (or, past the last turn, before the sorting loop): the
    state it leaves behind. *)
Definition _organize_library_interrupted (n : nat) (s : State) : State :=
  let (albums, artists) :=
    fold_left organize_track (firstn n (library s)) (albums s, artists s) in
  mkState (library s) albums artists (indexed_time s).

(** *** The cache *)

Definition strs (l : list string) : list Json.value := map Json.PStr l.

Definition track_object (t : Track) : Json.value :=
  Json.PDict
    [("path", Json.PStr (t_path t)); ("filename", Json.PStr (t_filename t));
     ("size", Json.PInt (t_size t)); ("album", Json.PStr (t_album t));
     ("artist", Json.PStr (t_artist t)); ("title", Json.PStr (t_title t));
     ("track_number", Json.PInt (t_track_number t));
     ("duration", Json.PInt (t_duration t))].

Definition album_object (a : Album) : Json.value :=
  Json.PDict
    [("name", Json.PStr (al_name a)); ("artist", Json.PStr (al_artist a));
     ("tracks", Json.PList (strs (al_tracks a)));
     ("track_count", Json.PInt (al_track_count a))].

Definition artist_object (a : Artist) : Json.value :=
  Json.PDict
    [("name", Json.PStr (ar_name a));
     ("albums", Json.PSet (strs (ar_albums a)));
     ("tracks", Json.PList (strs (ar_tracks a)))].

Definition dict_object {V} (f : V -> Json.value) (d : dict V) : Json.value :=
  Json.PDict (map (fun kv => (fst kv, f (snd kv))) d).

(** The [cache_data] dictionary of [save_cache]: the library as the
    Python object handed to [MusicLibraryCache.save]. *)
Definition cache_data (s : State) : Json.value :=
  Json.PDict
    [("tracks", dict_object track_object (library s));
     ("albums", dict_object album_object (albums s));
     ("artists", dict_object artist_object (artists s));
     ("indexed_time", Json.PInt (indexed_time s))].

Definition save_cache (s : State) (f : CacheFile) : CacheFile :=
  snd (MusicLibraryCache.save (cache_data s) f).

(** *** [index_library] *)

Definition non_empty {A} (l : list A) : bool :=
  match l with [] => false | _ => true end.

Definition fresh (env : Env) (s : State) : bool :=
  andb (Qlt_bool (time_at_check env - inject_Z 86400) (inject_Z (indexed_time s)))
       (non_empty (albums s)).

Definition index_library (env : Env) (force : bool) (s : State) (f : CacheFile)
    : Outcome bool * State * CacheFile :=
  if negb (mount_server env) then (Returned false, s, f)
  else if andb (negb force) (fresh env s) then (Returned true, s, f)
  else
    let s := mkState (scan env) [] [] (indexed_time s) in
    match organize_fault env with
    | Some n => (Raised RuntimeFault, _organize_library_interrupted n s, f)
    | None =>
        let s := _organize_library s in
        let s := mkState (library s) (albums s) (artists s)
                   (int_of_float (time_at_end env)) in
        (Returned true, s, save_cache s f)
    end.

(** *** Searching *)

Record AlbumSummary := mkSummary {
  s_key : string;
  s_name : string;
  s_artist : string;
  s_track_count : Z
}.

Definition matches (query : string) (ka : string * Album) : bool :=
  orb (contains query (fst ka))
    (orb (contains query (lower (al_name (snd ka))))
         (contains query (lower (al_artist (snd ka))))).

Definition summary (ka : string * Album) : AlbumSummary :=
  mkSummary (fst ka) (al_name (snd ka)) (al_artist (snd ka))
    (al_track_count (snd ka)).

(** The sort key of [search_album], for the lower-cased query. *)
Definition relevance (query : string) (x : AlbumSummary) : Z :=
  if String.eqb (lower (s_name x)) query then 0
  else if contains query (lower (s_name x)) then 1
  else 2.

(** The search proper, on the albums at hand. *)
Definition search_in (albums : dict Album) (query : string) : list AlbumSummary :=
  let query := lower query in
  let results := map summary (filter (matches query) albums) in
  sorted (relevance query) results.

Definition search_album (env : Env) (query : string) (s : State) (f : CacheFile)
    : Outcome (list AlbumSummary) * State * CacheFile :=
  match albums s with
  | [] =>
      match index_library env false s f with
      | (Returned true, s', f') => (Returned (search_in (albums s') query), s', f')
      | (Returned false, s', f') => (Returned [], s', f')
      | (Raised e, s', f') => (Raised e, s', f')
      end
  | _ => (Returned (search_in (albums s) query), s, f)
  end.

(** [get_album_tracks] *)
Definition get_album_tracks (s : State) (album_key : string) : list Track :=
  match dict_get (albums s) album_key with
  | None => []
  | Some album =>
      let tracks :=
        flat_map
          (fun track_id =>
             match dict_get (library s) track_id with
             | Some t => [t]
             | None => []
             end)
          (al_tracks album) in
      sorted t_track_number tracks
  end.

(** *** [get_random_album] *)

(** [random.choice(list(self.albums.keys()))] followed by the summary of
    the album; [draw] is the number the generator draws, reduced to the
    length of the list. An empty list is an [IndexError]. *)
Definition choose_album (draw : nat) (s : State) : Attempt (option AlbumSummary) :=
  match dict_keys (albums s) with
  | [] => Failed IndexError
  | (k0 :: _) as keys =>
      let album_key := nth (draw mod length keys) keys k0 in
      match dict_get (albums s) album_key with
      | Some a =>
          Done (Some (mkSummary album_key (al_name a) (al_artist a)
                        (al_track_count a)))
      | None => Failed KeyError
      end
  end.

Definition get_random_album (env : Env) (draw : nat) (s : State) (f : CacheFile)
    : Attempt (option AlbumSummary) * State * CacheFile :=
  match albums s with
  | [] =>
      match index_library env false s f with
      | (Returned true, s', f') => (choose_album draw s', s', f')
      | (Returned false, s', f') => (Done None, s', f')
      | (Raised e, s', f') => (Failed (Propagated e), s', f')
      end
  | _ => (choose_album draw s, s, f)
  end.

(** *** [__init__], [load_cache] and [save_cache] on the objects themselves

    [load_cache] stores what the cache file holds without looking at it,
    so the fields are taken here as Python objects. *)

Record Fields := mkFields {
  f_library : Json.value;
  f_albums : Json.value;
  f_artists : Json.value;
  f_indexed_time : Json.value
}.


(** The fields of a state of the library. *)
Definition fields_of (s : State) : Fields :=
  mkFields (dict_object track_object (library s))
    (dict_object album_object (albums s))
    (dict_object artist_object (artists s))
    (Json.PInt (indexed_time s)).








End MusicLibrary.

(** ** src/player.py *)

Module Player.

Inductive PlayerState := STOPPED | PLAYING | PAUSED.

(** What the playlist holds: the track dictionaries handed over by the
    library, of which the player reads only ['path']. *)
Record PlaylistTrack := { pl_path : string; pl_title : string }.

Record AlbumInfo := { ai_key : string; ai_name : string; ai_artist : string }.

(** The calls made on the VLC objects, oldest first. *)
Inductive VlcCall :=
| list_player_play
| list_player_play_item_at_index (i : Z)
| list_player_pause
| list_player_stop
| list_player_next
| list_player_previous
| audio_set_volume (v : Z)
| media_list_remove_all
| media_list_add_media (path : string).

Record Player := mkPlayer {
  state : PlayerState;
  current_album : option AlbumInfo;
  current_track_index : Z;
  current_playlist : list PlaylistTrack;
  monitor_thread_alive : bool;
  monitor_running : bool;
  status_callback : option nat;
  vlc : list VlcCall
}.

Definition with_vlc (p : Player) (c : list VlcCall) : Player :=
  mkPlayer (state p) (current_album p) (current_track_index p)
    (current_playlist p) (monitor_thread_alive p) (monitor_running p)
    (status_callback p) (vlc p ++ c).

Definition with_state (p : Player) (s : PlayerState) : Player :=
  mkPlayer s (current_album p) (current_track_index p)
    (current_playlist p) (monitor_thread_alive p) (monitor_running p)
    (status_callback p) (vlc p).

Definition with_index (p : Player) (i : Z) : Player :=
  mkPlayer (state p) (current_album p) i
    (current_playlist p) (monitor_thread_alive p) (monitor_running p)
    (status_callback p) (vlc p).

Definition len (p : Player) : Z := Z.of_nat (length (current_playlist p)).

Definition is_playing (p : Player) : bool :=
  match state p with PLAYING => true | _ => false end.

Definition is_paused (p : Player) : bool :=
  match state p with PAUSED => true | _ => false end.

Definition set_volume (volume : Z) (p : Player) : bool * Player :=
  let volume := Z.max 0 (Z.min 100 volume) in
  (true, with_vlc p [audio_set_volume volume]).

(** [__init__]: the volume is set first, then the fields. *)
Definition init (PLAYER_VOLUME : Z) : Player :=
  mkPlayer STOPPED None (-1) [] false false None
    [audio_set_volume (Z.max 0 (Z.min 100 PLAYER_VOLUME))].

Definition set_status_callback (cb : nat) (p : Player) : Player :=
  mkPlayer (state p) (current_album p) (current_track_index p)
    (current_playlist p) (monitor_thread_alive p) (monitor_running p)
    (Some cb) (vlc p).

Definition _start_monitor (p : Player) : Player :=
  if monitor_thread_alive p then p
  else mkPlayer (state p) (current_album p) (current_track_index p)
         (current_playlist p) true true (status_callback p) (vlc p).

Definition _on_media_end (p : Player) : Player :=
  if is_playing p then
    let i := current_track_index p + 1 in
    if i >=? len p then with_index p 0 else with_index p i
  else p.

Definition stop (p : Player) : bool * Player :=
  (true, with_state (with_vlc p [list_player_stop]) STOPPED).

Definition load_playlist (album_info : AlbumInfo)
    (tracks : list PlaylistTrack) (p : Player) : bool * Player :=
  let p1 := snd (stop p) in
  let p2 := with_vlc p1
              (media_list_remove_all
                 :: map (fun t => media_list_add_media (pl_path t)) tracks) in
  (true,
   mkPlayer (state p2) (Some album_info) 0 tracks
     (monitor_thread_alive p2) (monitor_running p2) (status_callback p2)
     (vlc p2)).

Definition play (p : Player) : bool * Player :=
  match current_playlist p with
  | [] => (false, p)
  | _ :: _ =>
      let p1 :=
        if is_paused p
        then with_state (with_vlc p [list_player_play]) PLAYING
        else with_state
               (with_vlc p
                  [list_player_play_item_at_index (current_track_index p)])
               PLAYING in
      (true, _start_monitor p1)
  end.

Definition pause (p : Player) : bool * Player :=
  if is_playing p
  then (true, with_state (with_vlc p [list_player_pause]) PAUSED)
  else (false, p).

Definition next_track (p : Player) : bool * Player :=
  if len p <=? 1 then (false, p)
  else
    let p1 := with_vlc p [list_player_next] in
    (true, with_index p1 ((current_track_index p1 + 1) mod len p1)).

Definition previous_track (p : Player) : bool * Player :=
  if len p <=? 1 then (false, p)
  else
    let p1 := with_vlc p [list_player_previous] in
    (true, with_index p1 ((current_track_index p1 - 1) mod len p1)).

(** The operations on a loaded playlist: the controller's commands and
    the backend's end-of-track event. *)
Inductive Op :=
| OpPlay | OpPause | OpStop | OpNext | OpPrevious
| OpSetVolume (v : Z)
| OpMediaEnd.

Definition step (p : Player) (op : Op) : Player :=
  match op with
  | OpPlay => snd (play p)
  | OpPause => snd (pause p)
  | OpStop => snd (stop p)
  | OpNext => snd (next_track p)
  | OpPrevious => snd (previous_track p)
  | OpSetVolume v => snd (set_volume v p)
  | OpMediaEnd => _on_media_end p
  end.

Definition run (p : Player) (ops : list Op) : Player :=
  fold_left step ops p.

(** Everything that can happen to a player after [__init__]. *)
Inductive Command :=
| Load (album_info : AlbumInfo) (tracks : list PlaylistTrack)
| Apply (op : Op).

Definition exec (p : Player) (c : Command) : Player :=
  match c with
  | Load a t => snd (load_playlist a t p)
  | Apply op => step p op
  end.

Definition exec_all (p : Player) (cs : list Command) : Player :=
  fold_left exec cs p.

(** *** Reading the player *)

(** What the VLC media player answers when asked. *)
Record Backend := mkBackend {
  audio_get_volume : Z;
  get_position : Q
}.

(** [self.state.name] *)
Definition state_name (s : PlayerState) : string :=
  match s with
  | STOPPED => "STOPPED"
  | PLAYING => "PLAYING"
  | PAUSED => "PAUSED"
  end.

Definition get_volume (b : Backend) (p : Player) : Z := audio_get_volume b.

(** The keys ['track'], ['position'] and ['track_index'] of a status, which
    are set together. *)
Record NowPlaying := mkNow {
  np_track : PlaylistTrack;
  np_position : Q;
  np_track_index : string
}.

(** The dictionary [get_status] returns; [None] for [st_now] when the
    three keys are absent. *)
Record Status := mkStatus {
  st_state : string;
  st_album : option AlbumInfo;
  st_volume : Z;
  st_now : option NowPlaying
}.

Definition is_stopped (p : Player) : bool :=
  match state p with STOPPED => true | _ => false end.

(** [0 <= self.current_track_index < len(self.current_playlist)] *)
Definition index_valid (p : Player) : bool :=
  andb (0 <=? current_track_index p) (current_track_index p <? len p).

Definition get_status (b : Backend) (p : Player) : Status :=
  let now :=
    if andb (negb (is_stopped p)) (index_valid p) then
      match nth_error (current_playlist p) (Z.to_nat (current_track_index p)) with
      | Some track =>
          Some (mkNow track
                  (if is_playing p then get_position b else 0%Q)
                  (String.append (str_of_int (current_track_index p + 1))
                     (String.append "/" (str_of_int (len p)))))
      | None => None
      end
    else None in
  mkStatus (state_name (state p)) (current_album p) (get_volume b p) now.

(** *** The monitoring thread *)

(** The local variables of [_monitor_playback]. *)
Record MonitorMemory := mkMemory {
  last_track_index : Z;
  last_position : Q
}.

Definition monitor_start : MonitorMemory := mkMemory (-1) (-1 # 1).

(** The status handed to the callback. *)
Record Report := mkReport {
  rp_state : string;
  rp_album : option AlbumInfo;
  rp_track : option PlaylistTrack;
  rp_position : Q;
  rp_volume : Z
}.

(** One turn of the loop of [_monitor_playback], between two sleeps: the
    new local variables and the status given to the callback, if any. *)
Definition monitor_turn (b : Backend) (p : Player) (m : MonitorMemory)
    : MonitorMemory * option Report :=
  if is_playing p then
    let position := get_position b in
    let current_track := current_track_index p in
    if orb (negb (current_track =? last_track_index m))
           (Qlt_bool (5 # 100) (Qabs (position - last_position m)))
    then
      let m' := mkMemory current_track position in
      match status_callback p with
      | Some _ =>
          let track_info :=
            if index_valid p
            then nth_error (current_playlist p) (Z.to_nat current_track)
            else None in
          (m', Some (mkReport (state_name (state p)) (current_album p)
                       track_info position (get_volume b p)))
      | None => (m', None)
      end
    else (m, None)
  else (m, None).

End Player.

(** ** src/telegram_bot.py

    A handler is taken as one step: what it replies, whether it ends in
    an exception, and the library, cache file and player it leaves. The
    texts of the replies are kept as constructors that carry the values
    the source formats into them. *)

Module TelegramController.
Import MusicLibrary.

Inductive Reply :=
| NotAuthorized        (* You are not authorized to use this bot. *)
| Hello (first_name : string)
| HelpText
| PlayingAlbum (name artist : string)          (* Playing: {name} by {artist} *)
| PlaybackStarted
| NoAlbumLoadedSearchFirst   (* No album loaded. Search for an album first. *)
| PlaybackPaused
| NothingIsPlaying
| PlaybackStopped
| NowPlayingNext (title : string)              (* Now playing: {title} *)
| SkippedToNext
| NowPlayingPrevious (title : string)
| ReturnedToPrevious
| NoPlaylistOrOneTrack   (* No playlist active or only one track available *)
| VolumeSetTo (volume : Z)                     (* Volume set to {volume}% *)
| CurrentVolume (volume : Z)
| PlayerIsStopped
| NoAlbumLoaded
| StatusText (state_lower name artist : string)
    (track : option (string * string)) (volume : Z)
| SelectingRandom
| FailedToFindRandom
| FoundButNoTracks (name : string)
| NowPlayingRandom (name artist : string) (tracks : nat)
| FailedToLoadRandom
| Rescanning
| ScanComplete (album_count : nat)   (* Library scan complete! Found {n} albums. *)
| SearchingFor (query : string)
| NoAlbumsFound (query : string)
| FoundAlbum (name artist : string)
| CouldNotLoadTracks
| NowPlaying (name artist : string) (titles : list string) (more : option nat)
| FailedToLoadAlbum
| FoundAlbums (count : nat) (query : string)
    (shown : list (string * string)) (more : option nat).

Record Controller := mkController {
  music_library : State;
  cache_file : Config.CacheFile;
  player : Player.Player
}.

(** Replies sent, the exception that ended the handler if any, and the
    controller afterwards. *)
Definition Result : Type := list Reply * option Failure * Controller.

(** The dictionaries handed to [load_playlist], as the player keeps them. *)
Definition album_info (x : AlbumSummary) : Player.AlbumInfo :=
  {| Player.ai_key := s_key x; Player.ai_name := s_name x;
     Player.ai_artist := s_artist x |}.

Definition playlist_track (t : Track) : Player.PlaylistTrack :=
  {| Player.pl_path := t_path t; Player.pl_title := t_title t |}.

Definition with_player (c : Controller) (p : Player.Player) : Controller :=
  mkController (music_library c) (cache_file c) p.

(** [_is_authorized], for the list [ALLOWED_TELEGRAM_USERS]. *)
Definition _is_authorized (allowed : list Z) (user_id : Z) : bool :=
  orb (Nat.eqb (length allowed) 0) (existsb (Z.eqb user_id) allowed).

(** [len(l) > 5] and then [len(l) - 5]. *)
Definition more_than_five {A} (l : list A) : option nat :=
  if (5 <? length l)%nat then Some (length l - 5)%nat else None.

Section Handlers.
Variable allowed : list Z.

Definition cmd_start (user_id : Z) (first_name : string) (c : Controller)
    : Result :=
  if negb (_is_authorized allowed user_id) then ([NotAuthorized], None, c)
  else ([Hello first_name], None, c).

Definition cmd_help (user_id : Z) (c : Controller) : Result :=
  if negb (_is_authorized allowed user_id) then ([NotAuthorized], None, c)
  else ([HelpText], None, c).

Definition cmd_play (b : Player.Backend) (user_id : Z) (c : Controller)
    : Result :=
  if negb (_is_authorized allowed user_id) then ([NotAuthorized], None, c)
  else
    let (ok, p) := Player.play (player c) in
    if ok then
      let status := Player.get_status b p in
      match Player.st_album status with
      | Some album =>
          ([PlayingAlbum (Player.ai_name album) (Player.ai_artist album)],
           None, with_player c p)
      | None => ([PlaybackStarted], None, with_player c p)
      end
    else ([NoAlbumLoadedSearchFirst], None, with_player c p).

Definition cmd_pause (user_id : Z) (c : Controller) : Result :=
  if negb (_is_authorized allowed user_id) then ([NotAuthorized], None, c)
  else
    let (ok, p) := Player.pause (player c) in
    if ok then ([PlaybackPaused], None, with_player c p)
    else ([NothingIsPlaying], None, with_player c p).

Definition cmd_stop (user_id : Z) (c : Controller) : Result :=
  if negb (_is_authorized allowed user_id) then ([NotAuthorized], None, c)
  else
    let (_, p) := Player.stop (player c) in
    ([PlaybackStopped], None, with_player c p).

Definition cmd_next (b : Player.Backend) (user_id : Z) (c : Controller)
    : Result :=
  if negb (_is_authorized allowed user_id) then ([NotAuthorized], None, c)
  else
    let (ok, p) := Player.next_track (player c) in
    if ok then
      match Player.st_now (Player.get_status b p) with
      | Some now =>
          ([NowPlayingNext (Player.pl_title (Player.np_track now))], None,
           with_player c p)
      | None => ([SkippedToNext], None, with_player c p)
      end
    else ([NoPlaylistOrOneTrack], None, with_player c p).

Definition cmd_prev (b : Player.Backend) (user_id : Z) (c : Controller)
    : Result :=
  if negb (_is_authorized allowed user_id) then ([NotAuthorized], None, c)
  else
    let (ok, p) := Player.previous_track (player c) in
    if ok then
      match Player.st_now (Player.get_status b p) with
      | Some now =>
          ([NowPlayingPrevious (Player.pl_title (Player.np_track now))], None,
           with_player c p)
      | None => ([ReturnedToPrevious], None, with_player c p)
      end
    else ([NoPlaylistOrOneTrack], None, with_player c p).

(** [context.args[0].isdigit()] is taken for the digits of ASCII; [int]
    of such a string does not fail. *)
Definition cmd_volume (b : Player.Backend) (user_id : Z) (args : list string)
    (c : Controller) : Result :=
  if negb (_is_authorized allowed user_id) then ([NotAuthorized], None, c)
  else
    let show :=
      ([CurrentVolume (Player.get_volume b (player c))], None, c) in
    match args with
    | arg :: _ =>
        if isdigit arg then
          match int_of_str arg with
          | Some volume =>
              let (_, p) := Player.set_volume volume (player c) in
              ([VolumeSetTo volume], None, with_player c p)
          | None => ([], Some ValueError, c)
          end
        else show
    | [] => show
    end.

Definition cmd_status (b : Player.Backend) (user_id : Z) (c : Controller)
    : Result :=
  if negb (_is_authorized allowed user_id) then ([NotAuthorized], None, c)
  else
    let status := Player.get_status b (player c) in
    if String.eqb (Player.st_state status) "STOPPED"
    then ([PlayerIsStopped], None, c)
    else
      match Player.st_album status with
      | None => ([NoAlbumLoaded], None, c)
      | Some album =>
          ([StatusText (lower (Player.st_state status))
              (Player.ai_name album) (Player.ai_artist album)
              (option_map
                 (fun now => (Player.pl_title (Player.np_track now),
                              Player.np_track_index now))
                 (Player.st_now status))
              (Player.st_volume status)],
           None, c)
      end.

(** [draw] is what the random generator draws in [get_random_album]. *)
Definition cmd_random (env : Env) (draw : nat) (user_id : Z) (c : Controller)
    : Result :=
  if negb (_is_authorized allowed user_id) then ([NotAuthorized], None, c)
  else
    match get_random_album env draw (music_library c) (cache_file c) with
    | (Failed e, s, f) =>
        ([SelectingRandom], Some e, mkController s f (player c))
    | (Done None, s, f) =>
        ([SelectingRandom; FailedToFindRandom], None,
         mkController s f (player c))
    | (Done (Some random_album), s, f) =>
        match get_album_tracks s (s_key random_album) with
        | [] =>
            ([SelectingRandom; FoundButNoTracks (s_name random_album)], None,
             mkController s f (player c))
        | album_tracks =>
            let (ok, p) :=
              Player.load_playlist (album_info random_album)
                (map playlist_track album_tracks) (player c) in
            if ok then
              ([SelectingRandom;
                NowPlayingRandom (s_name random_album) (s_artist random_album)
                  (length album_tracks)],
               None, mkController s f (snd (Player.play p)))
            else
              ([SelectingRandom; FailedToLoadRandom], None, mkController s f p)
        end
    end.

(** The scan runs in the executor and the handler waits for it; an
    exception of the scan comes out of the wait. *)
Definition cmd_rescan (env : Env) (user_id : Z) (c : Controller) : Result :=
  if negb (_is_authorized allowed user_id) then ([NotAuthorized], None, c)
  else
    match index_library env true (music_library c) (cache_file c) with
    | (Raised e, s, f) =>
        ([Rescanning], Some (Propagated e), mkController s f (player c))
    | (Returned _, s, f) =>
        ([Rescanning; ScanComplete (length (albums s))], None,
         mkController s f (player c))
    end.

Definition on_message (env : Env) (user_id : Z) (text : string)
    (c : Controller) : Result :=
  if negb (_is_authorized allowed user_id) then ([NotAuthorized], None, c)
  else
    let query := strip text in
    if is_empty query then ([], None, c)
    else
      match search_album env query (music_library c) (cache_file c) with
      | (Raised e, s, f) =>
          ([SearchingFor query], Some (Propagated e),
           mkController s f (player c))
      | (Returned results, s, f) =>
          match results with
          | [] =>
              ([SearchingFor query; NoAlbumsFound query], None,
               mkController s f (player c))
          | [album] =>
              let found := FoundAlbum (s_name album) (s_artist album) in
              match get_album_tracks s (s_key album) with
              | [] =>
                  ([SearchingFor query; found; CouldNotLoadTracks], None,
                   mkController s f (player c))
              | album_tracks =>
                  let (ok, p) :=
                    Player.load_playlist (album_info album)
                      (map playlist_track album_tracks) (player c) in
                  if ok then
                    ([SearchingFor query; found;
                      NowPlaying (s_name album) (s_artist album)
                        (map t_title (firstn 5 album_tracks))
                        (more_than_five album_tracks)],
                     None, mkController s f (snd (Player.play p)))
                  else
                    ([SearchingFor query; found; FailedToLoadAlbum], None,
                     mkController s f p)
              end
          | _ =>
              ([SearchingFor query;
                FoundAlbums (length results) query
                  (map (fun album => (s_name album, s_artist album))
                     (firstn 5 results))
                  (more_than_five results)],
               None, mkController s f (player c))
          end
      end.

(** The handlers that [start] registers. *)
Inductive Update :=
| CommandStart (first_name : string)
| CommandHelp
| CommandPlay
| CommandPause
| CommandStop
| CommandNext
| CommandPrev
| CommandVolume (args : list string)
| CommandStatus
| CommandRandom
| CommandRescan
| TextMessage (text : string).

(** What the outside contributes to one handler: the share, the audio
    backend and the random generator. *)
Record World := mkWorld {
  w_env : Env;
  w_backend : Player.Backend;
  w_draw : nat
}.

Definition handle (w : World) (user_id : Z) (u : Update) (c : Controller)
    : Result :=
  match u with
  | CommandStart first_name => cmd_start user_id first_name c
  | CommandHelp => cmd_help user_id c
  | CommandPlay => cmd_play (w_backend w) user_id c
  | CommandPause => cmd_pause user_id c
  | CommandStop => cmd_stop user_id c
  | CommandNext => cmd_next (w_backend w) user_id c
  | CommandPrev => cmd_prev (w_backend w) user_id c
  | CommandVolume args => cmd_volume (w_backend w) user_id args c
  | CommandStatus => cmd_status (w_backend w) user_id c
  | CommandRandom => cmd_random (w_env w) (w_draw w) user_id c
  | CommandRescan => cmd_rescan (w_env w) user_id c
  | TextMessage text => on_message (w_env w) user_id text c
  end.

End Handlers.

End TelegramController.

(** ** Vocabulary of the properties *)

(** [l] is in ascending order of [key]. *)
Definition ascending {A} (key : A -> Z) (l : list A) : Prop :=
  StronglySorted (fun a b => key a <= key b) l.

(** The elements of [output] that share a key come in the order they have
    in [input], and they are the same elements: what a stable sort
    guarantees. *)
Definition ties_keep_order {A} (key : A -> Z) (input output : list A) : Prop :=
  forall k, filter (fun x => key x =? k) output
            = filter (fun x => key x =? k) input.

(** The tracks of [library] that belong to the album [key], in the order
    in which the scan discovered them. *)
Definition discovered (library : dict MusicLibrary.Track) (key : string)
    : list (string * MusicLibrary.Track) :=
  filter (fun it => String.eqb (MusicLibrary.album_key_of (snd it)) key) library.

(** The entry [_organize_library] builds for a group of tracks. *)
Definition album_of_group (g : list (string * MusicLibrary.Track))
    : option MusicLibrary.Album :=
  match g with
  | [] => None
  | it :: _ =>
      Some (MusicLibrary.mkAlbum (MusicLibrary.t_album (snd it))
              (MusicLibrary.t_artist (snd it)) (map fst g)
              (Z.of_nat (length g)))
  end.

(** What the albums dictionary holds for each key, once the tracks [done]
    have been through the loop of [_organize_library]. *)
Definition albums_group (done : dict MusicLibrary.Track)
    (al : dict MusicLibrary.Album) : Prop :=
  forall key, dict_get al key = album_of_group (discovered done key).

Definition index_in_range (p : Player.Player) : Prop :=
  0 <= Player.current_track_index p < Player.len p.

(** Whenever the player is not stopped, a playlist is loaded. *)
Definition active_has_playlist (p : Player.Player) : Prop :=
  Player.state p <> Player.STOPPED -> Player.current_playlist p <> [].

(** What an encoder writes for [x] closes every bracket it opens when the
    encoder completes, and never closes more than it opens. *)
Definition balanced (enc : Json.value -> list Json.token * bool)
    (x : Json.value) : Prop :=
  0 <= Json.depth (fst (enc x)) /\
  (snd (enc x) = true -> Json.depth (fst (enc x)) = 0).






(** ** Sample inputs *)

Definition demo_album : Player.AlbumInfo :=
  {| Player.ai_key := "artist - albumx";
     Player.ai_name := "AlbumX";
     Player.ai_artist := "Artist" |}.

Definition demo_tracks : list Player.PlaylistTrack :=
  [ {| Player.pl_path := "/home/jay/music_server/Artist/AlbumX/01 - Song.flac";
       Player.pl_title := "01 - Song" |};
    {| Player.pl_path := "/home/jay/music_server/Artist/AlbumX/02 - Song2.flac";
       Player.pl_title := "02 - Song2" |};
    {| Player.pl_path := "/home/jay/music_server/Artist/AlbumX/03 - Song3.flac";
       Player.pl_title := "03 - Song3" |} ].

Definition demo_commands : list Player.Command :=
  [Player.Load demo_album demo_tracks; Player.Apply Player.OpPlay;
   Player.Apply Player.OpNext].

(** A mounted share with one album of two untagged FLAC files, as in the
    end-to-end scenario of the specification, and a process whose hash
    key comes from [PYTHONHASHSEED=1]. *)
Definition sample_env : MusicLibrary.Env :=
  {| MusicLibrary.mount_server := true;
     MusicLibrary.time_at_check := 1000 # 1;
     MusicLibrary.walk :=
       [("/home/jay/music_server", []);
        ("/home/jay/music_server/Artist", []);
        ("/home/jay/music_server/Artist/AlbumX",
         ["01 - Song.flac"; "02 - Song2.flac"])];
     MusicLibrary.MutagenFile :=
       (fun _ => MusicLibrary.MutagenAudio (MusicLibrary.FLAC [] (361 # 2)));
     MusicLibrary.getsize := (fun _ => Some 1000);
     MusicLibrary.hash_secret := PyHash.secret_of_seed 1;
     MusicLibrary.organize_fault := None;
     MusicLibrary.time_at_end := 2003 # 2 |}.

(** Three tagged files of one album, discovered in the order b, a, c with
    track numbers 2, 1, 2. *)
Definition tagged_env : MusicLibrary.Env :=
  {| MusicLibrary.mount_server := true;
     MusicLibrary.time_at_check := 1000 # 1;
     MusicLibrary.walk :=
       [("/home/jay/music_server/Artist/AlbumX",
         ["b.flac"; "a.flac"; "c.flac"])];
     MusicLibrary.MutagenFile :=
       (fun path =>
          MusicLibrary.MutagenAudio
            (MusicLibrary.FLAC
               [("album", ["AlbumX"]); ("artist", ["Artist"]);
                ("title", [basename path]);
                ("tracknumber",
                 [if String.eqb (basename path) "a.flac" then "1/3" else "2/3"])]
               (180 # 1)));
     MusicLibrary.getsize := (fun _ => Some 1000);
     MusicLibrary.hash_secret := PyHash.secret_of_seed 1;
     MusicLibrary.organize_fault := None;
     MusicLibrary.time_at_end := 2003 # 2 |}.

(** [env] with another result of [os.walk]. *)
Definition with_walk (env : MusicLibrary.Env)
    (w : list (string * list string)) : MusicLibrary.Env :=
  MusicLibrary.mkEnv (MusicLibrary.mount_server env)
    (MusicLibrary.time_at_check env) w (MusicLibrary.MutagenFile env)
    (MusicLibrary.getsize env) (MusicLibrary.hash_secret env)
    (MusicLibrary.organize_fault env) (MusicLibrary.time_at_end env).

(** [env] at other readings of the clock. *)
Definition at_time (env : MusicLibrary.Env) (check done : Q) : MusicLibrary.Env :=
  MusicLibrary.mkEnv (MusicLibrary.mount_server env) check
    (MusicLibrary.walk env) (MusicLibrary.MutagenFile env)
    (MusicLibrary.getsize env) (MusicLibrary.hash_secret env)
    (MusicLibrary.organize_fault env) done.

(** [env] in a process with another hash key. *)
Definition in_process (env : MusicLibrary.Env) (secret : PyHash.HashSecret)
    : MusicLibrary.Env :=
  MusicLibrary.mkEnv (MusicLibrary.mount_server env)
    (MusicLibrary.time_at_check env) (MusicLibrary.walk env)
    (MusicLibrary.MutagenFile env) (MusicLibrary.getsize env) secret
    (MusicLibrary.organize_fault env) (MusicLibrary.time_at_end env).


(** The mounted share holds no audio file. *)
Definition bare_env : MusicLibrary.Env :=
  with_walk sample_env [("/home/jay/music_server", ["notes.txt"])].

(** The state and the cache file once [sample_env] has been indexed. *)
Definition sample_state : MusicLibrary.State :=
  snd (fst (MusicLibrary.index_library sample_env false MusicLibrary.empty None)).

Definition sample_file : Config.CacheFile :=
  snd (MusicLibrary.index_library sample_env false MusicLibrary.empty None).

(** One album directory directly under the mount root. *)
Definition flat_env : MusicLibrary.Env :=
  with_walk sample_env
    [("/home/jay/music_server/AlbumX", ["01 - Song.flac"])].

(** [s] without its prefix [p]. *)
Fixpoint drop_prefix (p s : string) : option string :=
  match p, s with
  | EmptyString, _ => Some s
  | String c p', String d s' =>
      if Ascii.eqb c d then drop_prefix p' s' else None
  | String _ _, EmptyString => None
  end.

(** The components of the path of a file relative to the mount root. *)
Definition relative_components (file_path : string) : option (list string) :=
  match drop_prefix (String.append Config.MOUNT_POINT "/") file_path with
  | Some rest => Some (split "/" rest)
  | None => None
  end.

(** The track dictionary of a file before any tag is read. *)
Definition untagged (file_path : string) : MusicLibrary.Track :=
  MusicLibrary.mkTrack file_path (basename file_path) 0 "" "" "" 0 0.

(** ** Claims of the specification that the code does not meet *)

(** C1, as stated: a library with tracks, albums and artists comes back
    from the cache as it was saved. *)
Definition C1_as_stated : Prop :=
  forall s f,
    MusicLibrary.library s <> [] -> MusicLibrary.albums s <> [] ->
    MusicLibrary.artists s <> [] ->
    MusicLibraryCache.load
      (snd (MusicLibraryCache.save (MusicLibrary.cache_data s) f))
    = Returned (MusicLibrary.cache_data s).


(** C3, as stated: the id of a track depends on its path only, not on the
    process that computes it. *)
Definition C3_as_stated : Prop :=
  forall secret1 secret2 file_path,
    MusicLibrary.track_id secret1 file_path
    = MusicLibrary.track_id secret2 file_path.

(** C5, as stated, for a file whose album or artist is empty after the
    tags were read: with at least three components in its path relative
    to the mount root, an empty artist becomes the third component from
    the end and an empty album the second from the end; with fewer, the
    track is left as it is. *)
Definition C5_as_stated : Prop :=
  forall file_path comps t,
    relative_components file_path = Some comps ->
    MusicLibrary.t_album t = "" \/ MusicLibrary.t_artist t = "" ->
    let t' := MusicLibrary.path_fallback file_path t in
    if (3 <=? length comps)%nat
    then (MusicLibrary.t_artist t = "" ->
          MusicLibrary.t_artist t' = nth_from_end 3 comps "") /\
         (MusicLibrary.t_album t = "" ->
          MusicLibrary.t_album t' = nth_from_end 2 comps "")
    else t' = t.

(** C7, as stated: whatever the first call of [index_library] found, a
    second call with [force=false], the share mounted and the clock less
    than 24 hours past [indexed_time], succeeds and changes nothing. *)
Definition C7_as_stated : Prop :=
  forall env1 env2 s f,
    MusicLibrary.mount_server env2 = true ->
    let s1 := snd (fst (MusicLibrary.index_library env1 false s f)) in
    let f1 := snd (MusicLibrary.index_library env1 false s f) in
    (MusicLibrary.time_at_check env2
     - inject_Z (MusicLibrary.indexed_time s1) < inject_Z 86400)%Q ->
    MusicLibrary.index_library env2 false s1 f1 = (Returned true, s1, f1).


(** ** Vocabulary of the further properties *)

(** A player that has a playlist has its index inside it. *)
Definition loaded_in_range (p : Player.Player) : Prop :=
  Player.current_playlist p <> [] -> index_in_range p.

(** The monitoring thread lives exactly when its flag is set. *)
Definition monitor_flags_agree (p : Player.Player) : Prop :=
  Player.monitor_thread_alive p = Player.monitor_running p.

(** The track comes from a file of the walk that the scan does not skip:
    its name does not start with a dot and ends, in lower case, with a
    supported extension. *)
Definition from_walk (env : MusicLibrary.Env) (t : MusicLibrary.Track) : Prop :=
  exists root files file,
    In (root, files) (MusicLibrary.walk env) /\ In file files /\
    MusicLibrary.t_path t = path_join root file /\
    MusicLibrary.t_filename t = basename (path_join root file) /\
    startswith file "._" = false /\
    endswith_any (lower file) MusicLibrary.supported_extensions = true /\
    startswith (basename (path_join root file)) "." = false.

(** Reading the file fails inside [_process_audio_file]: mutagen raises or
    knows no format for it, its size cannot be read, or a tag of a FLAC
    file has an empty list of values. *)
Definition extraction_fails (env : MusicLibrary.Env) (file_path : string) : bool :=
  match MusicLibrary.MutagenFile env file_path with
  | MusicLibrary.MutagenRaised | MusicLibrary.MutagenNone => true
  | MusicLibrary.MutagenAudio audio =>
      match MusicLibrary.getsize env file_path with
      | None => true
      | Some size =>
          match MusicLibrary.extract_tags audio
                  (MusicLibrary.mkTrack file_path (basename file_path) size
                     "" "" "" 0 0) with
          | None => true
          | Some _ => false
          end
      end
  end.

(** The walk without the files whose reading fails. *)
Definition without_failing (env : MusicLibrary.Env) : MusicLibrary.Env :=
  with_walk env
    (map (fun dir =>
            (fst dir,
             filter (fun file =>
                       negb (extraction_fails env (path_join (fst dir) file)))
               (snd dir)))
       (MusicLibrary.walk env)).

(** The tracks of the library whose artist key is [key], in dictionary
    order. *)
Definition by_artist (library : dict MusicLibrary.Track) (key : string)
    : list (string * MusicLibrary.Track) :=
  filter (fun it => String.eqb (MusicLibrary.artist_key_of (snd it)) key) library.

(** The entry [_organize_library] builds for the tracks of an artist. *)
Definition artist_of_group (g : list (string * MusicLibrary.Track))
    : option MusicLibrary.Artist :=
  match g with
  | [] => None
  | it :: _ =>
      Some (MusicLibrary.mkArtist (MusicLibrary.t_artist (snd it))
              (fold_left set_add
                 (map (fun it => MusicLibrary.album_key_of (snd it)) g) [])
              (map fst g))
  end.

Definition artists_group (done : dict MusicLibrary.Track)
    (ar : dict MusicLibrary.Artist) : Prop :=
  forall key, dict_get ar key = artist_of_group (by_artist done key).

(** [sub] occurs in [s]. *)
Definition occurs (sub s : string) : Prop :=
  exists pre post, s = String.append pre (String.append sub post).

(** [env] when the share cannot be mounted. *)
Definition unmounted (env : MusicLibrary.Env) : MusicLibrary.Env :=
  MusicLibrary.mkEnv false
    (MusicLibrary.time_at_check env) (MusicLibrary.walk env)
    (MusicLibrary.MutagenFile env) (MusicLibrary.getsize env)
    (MusicLibrary.hash_secret env) (MusicLibrary.organize_fault env)
    (MusicLibrary.time_at_end env).

(* ================================================================== *)
(** * Part II: properties                                              *)
(* ================================================================== *)

(** ** Player *)

Section PlayerFacts.
Import Player.

Ltac player_cases p :=
  repeat match goal with
    | |- context [play p] => unfold play, _start_monitor
    | |- context [pause p] => unfold pause
    | |- context [next_track p] => unfold next_track
    | |- context [previous_track p] => unfold previous_track
    | |- context [_on_media_end p] => unfold _on_media_end
    | |- context [match current_playlist p with _ => _ end] =>
        let E := fresh "Epl" in destruct (current_playlist p) eqn:E
    | |- context [if ?b then _ else _] => destruct b eqn:?
    end; simpl.

Lemma step_index_in_range p op :
  index_in_range p -> index_in_range (step p op).
Proof.
  unfold index_in_range, len. intros H.
  destruct op; simpl; try assumption; player_cases p;
    unfold len in *; simpl in *; rewrite ?Epl in *; simpl in *;
    try assumption; try lia; apply Z.mod_pos_bound; lia.
Qed.

Lemma run_index_in_range ops : forall p,
  index_in_range p -> index_in_range (run p ops).
Proof.
  induction ops as [|op ops IH]; intros p Hp; simpl; [assumption|].
  apply IH, step_index_in_range, Hp.
Qed.

Lemma load_playlist_index_in_range album tracks p :
  tracks <> [] -> index_in_range (snd (load_playlist album tracks p)).
Proof.
  intros H. unfold index_in_range, len. simpl.
  destruct tracks; [contradiction|]. simpl length. lia.
Qed.

Lemma exec_active_has_playlist p c :
  active_has_playlist p -> active_has_playlist (exec p c).
Proof.
  unfold active_has_playlist. intros H.
  destruct c as [a t|op]; simpl.
  - intros C. now contradiction C.
  - destruct op; simpl; try assumption.
    + unfold play, _start_monitor.
      destruct (current_playlist p) eqn:E; simpl; [rewrite E; assumption|].
      intros _.
      destruct (is_paused p); simpl;
        destruct (monitor_thread_alive p); simpl; rewrite E; discriminate.
    + unfold pause, is_playing.
      destruct (state p) eqn:E; simpl; rewrite ?E; try exact H.
      intros _. apply H. discriminate.
    + intros C. now contradiction C.
    + unfold next_track. destruct (len p <=? 1); simpl; assumption.
    + unfold previous_track. destruct (len p <=? 1); simpl; assumption.
    + unfold _on_media_end. destruct (is_playing p); [|assumption].
      destruct (_ >=? _); simpl; assumption.
Qed.

Lemma exec_all_active_has_playlist cs : forall p,
  active_has_playlist p -> active_has_playlist (exec_all p cs).
Proof.
  induction cs as [|c cs IH]; intros p Hp; simpl; [assumption|].
  apply IH, exec_active_has_playlist, Hp.
Qed.

Lemma init_active_has_playlist v : active_has_playlist (init v).
Proof. intros C. now contradiction C. Qed.




(** C10. After [load_playlist] with a non-empty track list, every sequence
    of [play], [pause], [stop], [next_track], [previous_track],
    [set_volume] and end-of-track events leaves
    [0 <= current_track_index < len(current_playlist)]. *)
Theorem C10_index_stays_in_range :
  forall p album tracks ops,
    tracks <> [] ->
    let p' := run (snd (load_playlist album tracks p)) ops in
    0 <= current_track_index p' < Z.of_nat (length (current_playlist p')).
Proof.
  intros p album tracks ops H p'.
  apply (run_index_in_range ops), load_playlist_index_in_range, H.
Qed.

Lemma C10_index_stays_in_range_witness :
  let p' := run (snd (load_playlist demo_album demo_tracks (init 70)))
              [OpPlay; OpMediaEnd; OpMediaEnd; OpMediaEnd; OpPrevious] in
  0 <= current_track_index p' < Z.of_nat (length (current_playlist p')).
Proof.
  apply (C10_index_stays_in_range (init 70) demo_album demo_tracks).
  discriminate.
Defined.

End PlayerFacts.

(** ** The stable sort *)

Section SortingFacts.
Context {A : Type} (key : A -> Z).

Lemma insert_by_perm x l : Permutation (insert_by key x l) (x :: l).
Proof.
  induction l as [|y r IH]; simpl; [reflexivity|].
  destruct (key x <=? key y); [reflexivity|].
  rewrite IH. apply perm_swap.
Qed.

Lemma sorted_perm l : Permutation (sorted key l) l.
Proof.
  induction l as [|x l IH]; simpl; [reflexivity|].
  rewrite insert_by_perm. now constructor.
Qed.

Lemma sorted_In x l : In x (sorted key l) <-> In x l.
Proof.
  split; apply Permutation_in; [|symmetry]; apply sorted_perm.
Qed.

Lemma insert_by_ascending x l :
  ascending key l -> ascending key (insert_by key x l).
Proof.
  unfold ascending. induction l as [|y r IH]; simpl; intros H.
  - constructor; [constructor|constructor].
  - destruct (key x <=? key y) eqn:E.
    + apply Z.leb_le in E. inversion H; subst.
      constructor; [assumption|].
      constructor; [assumption|].
      eapply Forall_impl; [|eassumption]. simpl. intros; lia.
    + apply Z.leb_gt in E. inversion H; subst.
      constructor; [now apply IH|].
      eapply Permutation_Forall.
      * symmetry. apply insert_by_perm.
      * constructor; [lia|assumption].
Qed.

Lemma sorted_ascending l : ascending key (sorted key l).
Proof.
  induction l as [|x l IH]; simpl; [constructor|].
  now apply insert_by_ascending.
Qed.

Lemma insert_by_filter x l k :
  filter (fun y => key y =? k) (insert_by key x l)
  = filter (fun y => key y =? k) (x :: l).
Proof.
  induction l as [|y r IH]; [reflexivity|].
  simpl insert_by. destruct (key x <=? key y) eqn:E; [reflexivity|].
  apply Z.leb_gt in E.
  change (filter (fun y0 => key y0 =? k) (y :: insert_by key x r))
    with (if key y =? k
          then y :: filter (fun y0 => key y0 =? k) (insert_by key x r)
          else filter (fun y0 => key y0 =? k) (insert_by key x r)).
  rewrite IH. simpl.
  destruct (key y =? k) eqn:Ey, (key x =? k) eqn:Ex; try reflexivity.
  apply Z.eqb_eq in Ey, Ex. lia.
Qed.

Lemma sorted_ties_keep_order l : ties_keep_order key l (sorted key l).
Proof.
  intros k. induction l as [|x l IH]; [reflexivity|].
  simpl sorted. rewrite insert_by_filter. simpl. now rewrite IH.
Qed.

Lemma sorted_of_ascending l : ascending key l -> sorted key l = l.
Proof.
  unfold ascending. induction l as [|x l IH]; intros H; [reflexivity|].
  inversion H; subst. simpl. rewrite IH by assumption.
  destruct l as [|y r]; [reflexivity|]. simpl.
  inversion H3; subst. apply Z.leb_le in H4. now rewrite H4.
Qed.

Lemma sorted_idempotent l : sorted key (sorted key l) = sorted key l.
Proof. apply sorted_of_ascending, sorted_ascending. Qed.

Lemma insert_by_ext (key' : A -> Z) x l :
  key x = key' x -> (forall y, In y l -> key y = key' y) ->
  insert_by key x l = insert_by key' x l.
Proof.
  intros Hx. induction l as [|y r IH]; intros H; [reflexivity|].
  simpl. rewrite Hx, (H y (in_eq y r)).
  rewrite IH; [reflexivity|]. intros z Hz. apply H, in_cons, Hz.
Qed.

Lemma sorted_ext (key' : A -> Z) l :
  (forall y, In y l -> key y = key' y) -> sorted key l = sorted key' l.
Proof.
  induction l as [|x l IH]; intros H; [reflexivity|].
  assert (Hl : forall y, In y l -> key y = key' y)
    by (intros y Hy; apply H; now right).
  simpl. rewrite <- (IH Hl).
  apply insert_by_ext; [apply H, in_eq|].
  intros y Hy. apply Hl. exact (proj1 (sorted_In y l) Hy).
Qed.

End SortingFacts.

Lemma insert_by_map {A B} (key : A -> Z) (f : B -> A) x l :
  insert_by key (f x) (map f l) = map f (insert_by (fun b => key (f b)) x l).
Proof.
  induction l as [|y r IH]; [reflexivity|].
  simpl. destruct (key (f x) <=? key (f y)); [reflexivity|].
  simpl. now rewrite IH.
Qed.

Lemma sorted_map {A B} (key : A -> Z) (f : B -> A) l :
  sorted key (map f l) = map f (sorted (fun b => key (f b)) l).
Proof.
  induction l as [|x l IH]; [reflexivity|].
  simpl. rewrite IH. apply insert_by_map.
Qed.

Lemma ties_keep_order_map {A B} (key : A -> Z) (f : B -> A) input output :
  ties_keep_order (fun b => key (f b)) input output ->
  ties_keep_order key (map f input) (map f output).
Proof.
  intros H k. specialize (H k).
  assert (E : forall l, filter (fun x => key x =? k) (map f l)
                        = map f (filter (fun b => key (f b) =? k) l)).
  { induction l as [|x l IH]; [reflexivity|].
    simpl. destruct (key (f x) =? k); simpl; now rewrite IH. }
  now rewrite !E, H.
Qed.

(** ** Dictionaries *)

Section DictFacts.
Context {V : Type}.
Implicit Types (d : dict V) (k : string) (v : V).

Lemma dict_get_set d k v k' :
  dict_get (dict_set d k v) k'
  = if String.eqb k k' then Some v else dict_get d k'.
Proof.
  induction d as [|[k0 v0] r IH]; simpl.
  - reflexivity.
  - destruct (String.eqb k0 k) eqn:E; simpl.
    + apply String.eqb_eq in E. subst k0.
      destruct (String.eqb k k'); reflexivity.
    + destruct (String.eqb k0 k') eqn:E'.
      * apply String.eqb_eq in E'. subst k'.
        rewrite String.eqb_sym, E. reflexivity.
      * apply IH.
Qed.

Lemma dict_keys_set d k v :
  dict_keys (dict_set d k v)
  = if dict_mem d k then dict_keys d else dict_keys d ++ [k].
Proof.
  unfold dict_mem. induction d as [|[k0 v0] r IH]; simpl; [reflexivity|].
  destruct (String.eqb k0 k) eqn:E; simpl; [reflexivity|].
  rewrite IH. destruct (dict_get r k); reflexivity.
Qed.

Lemma dict_get_None_keys d k : dict_get d k = None -> ~ In k (dict_keys d).
Proof.
  induction d as [|[k0 v0] r IH]; simpl; [tauto|].
  destruct (String.eqb k0 k) eqn:E; [discriminate|].
  apply String.eqb_neq in E. intros H [C|C]; [contradiction|]. now apply IH.
Qed.

Lemma dict_set_NoDup d k v :
  NoDup (dict_keys d) -> NoDup (dict_keys (dict_set d k v)).
Proof.
  intros H. rewrite dict_keys_set. unfold dict_mem.
  destruct (dict_get d k) eqn:E; [assumption|].
  apply dict_get_None_keys in E.
  apply NoDup_rev in H. rewrite <- (rev_involutive (dict_keys d ++ [k])).
  apply NoDup_rev. rewrite rev_app_distr. simpl.
  constructor; [|assumption]. now rewrite <- in_rev.
Qed.

Lemma dict_get_In d k v :
  NoDup (dict_keys d) -> In (k, v) d -> dict_get d k = Some v.
Proof.
  induction d as [|[k0 v0] r IH]; simpl; [tauto|].
  intros Hnd [E|Hin].
  - inversion E; subst. now rewrite String.eqb_refl.
  - inversion Hnd; subst.
    destruct (String.eqb k0 k) eqn:E.
    + apply String.eqb_eq in E. subst k0. exfalso. apply H1.
      apply (in_map fst) in Hin. exact Hin.
    + now apply IH.
Qed.

Lemma dict_get_modify d k (f : V -> V) k' :
  dict_get (MusicLibrary.dict_modify d k f) k'
  = if String.eqb k k' then option_map f (dict_get d k) else dict_get d k'.
Proof.
  unfold MusicLibrary.dict_modify.
  destruct (dict_get d k) eqn:E.
  - rewrite dict_get_set. destruct (String.eqb k k'); reflexivity.
  - destruct (String.eqb k k') eqn:E'; [|reflexivity].
    apply String.eqb_eq in E'. subst k'. now rewrite E.
Qed.

End DictFacts.

(** ** Scanning and aggregation *)

Section LibraryFacts.
Import MusicLibrary.

Lemma fold_left_invariant {A B} (P : A -> Prop) (f : A -> B -> A) l :
  (forall a b, P a -> P (f a b)) -> forall a, P a -> P (fold_left f l a).
Proof.
  intros Hf. induction l as [|b l IH]; simpl; intros a Ha; [assumption|].
  apply IH, Hf, Ha.
Qed.

Lemma process_audio_file_NoDup env file_path lib :
  NoDup (dict_keys lib) ->
  NoDup (dict_keys (_process_audio_file env file_path lib)).
Proof.
  intros H. unfold _process_audio_file.
  destruct (orb _ _); [assumption|].
  destruct (MutagenFile env file_path); try assumption.
  destruct (getsize env file_path); [|assumption].
  destruct (extract_tags _ _); [|assumption].
  now apply dict_set_NoDup.
Qed.

Lemma scan_NoDup env : NoDup (dict_keys (scan env)).
Proof.
  unfold scan. apply fold_left_invariant; [|constructor].
  intros lib dir H. apply fold_left_invariant; [|assumption].
  intros lib' file H'. unfold scan_file.
  destruct (startswith file "._"); [assumption|].
  destruct (endswith_any _ _); [|assumption].
  now apply process_audio_file_NoDup.
Qed.

Lemma fold_organize_albums items : forall al ar,
  fst (fold_left organize_track items (al, ar))
  = fold_left (fun al it => add_to_albums al (fst it) (snd it)) items al.
Proof.
  induction items as [|it items IH]; intros al ar; simpl; [reflexivity|].
  apply IH.
Qed.

Lemma discovered_app lib1 lib2 key :
  discovered (lib1 ++ lib2) key = discovered lib1 key ++ discovered lib2 key.
Proof. apply filter_app. Qed.

Lemma add_to_albums_group done al id t :
  albums_group done al ->
  albums_group (done ++ [(id, t)]) (add_to_albums al id t).
Proof.
  intros Inv key. unfold add_to_albums.
  rewrite dict_get_modify, discovered_app.
  unfold discovered at 2. simpl.
  destruct (String.eqb (album_key_of t) key) eqn:E.
  - apply String.eqb_eq in E. subst key.
    unfold dict_mem. rewrite (Inv (album_key_of t)).
    destruct (discovered done (album_key_of t)) as [|it0 g] eqn:G; simpl.
    + rewrite dict_get_set, String.eqb_refl. reflexivity.
    + rewrite (Inv (album_key_of t)), G. simpl.
      rewrite map_app, length_app. simpl.
      repeat f_equal. lia.
  - rewrite app_nil_r.
    destruct (dict_mem al (album_key_of t)); [apply Inv|].
    rewrite dict_get_set, E. apply Inv.
Qed.

Lemma fold_add_to_albums_group items : forall done al,
  albums_group done al ->
  albums_group (done ++ items)
    (fold_left (fun al it => add_to_albums al (fst it) (snd it)) items al).
Proof.
  induction items as [|[id t] items IH]; intros done al Inv; simpl.
  - now rewrite app_nil_r.
  - replace (done ++ (id, t) :: items) with ((done ++ [(id, t)]) ++ items)
      by (rewrite <- app_assoc; reflexivity).
    apply IH, add_to_albums_group, Inv.
Qed.

Lemma dict_get_sort_albums lib al key :
  dict_get (sort_albums lib al) key
  = option_map (sort_album lib) (dict_get al key).
Proof.
  induction al as [|[k a] r IH]; simpl; [reflexivity|].
  destruct (String.eqb k key); [reflexivity|apply IH].
Qed.

Lemma organize_library_library s : library (_organize_library s) = library s.
Proof.
  unfold _organize_library. now destruct (fold_left _ _ _).
Qed.

Lemma organize_library_albums lib t key :
  dict_get (albums (_organize_library (mkState lib [] [] t))) key
  = option_map (sort_album lib) (album_of_group (discovered lib key)).
Proof.
  unfold _organize_library. cbn [library albums artists indexed_time].
  match goal with
  | |- context [let (_, _) := ?x in _] => destruct x as [al ar] eqn:F
  end.
  assert (E : al = fold_left
                     (fun al it => add_to_albums al (fst it) (snd it)) lib []).
  { change al with (fst (al, ar)). rewrite <- F. apply fold_organize_albums. }
  cbn [albums]. rewrite E, dict_get_sort_albums. f_equal.
  apply (fold_add_to_albums_group lib [] []). intros k. reflexivity.
Qed.

Lemma album_of_group_tracks g a :
  album_of_group g = Some a -> al_tracks a = map fst g.
Proof.
  destruct g; simpl; [discriminate|]. intros E. now inversion E.
Qed.

(** [index_library] when it scans and nothing fails. *)
Lemma index_library_scans env force s f :
  mount_server env = true ->
  andb (negb force) (fresh env s) = false ->
  organize_fault env = None ->
  index_library env force s f
  = let s1 := _organize_library (mkState (scan env) [] [] (indexed_time s)) in
    let s2 := mkState (library s1) (albums s1) (artists s1)
                (int_of_float (time_at_end env)) in
    (Returned true, s2, save_cache s2 f).
Proof.
  intros Hm Hf Ho. unfold index_library. now rewrite Hm, Hf, Ho.
Qed.

Lemma lookup_discovered lib key it :
  NoDup (dict_keys lib) -> In it (discovered lib key) ->
  dict_get lib (fst it) = Some (snd it).
Proof.
  intros Hnd Hin. apply filter_In in Hin as [Hin _].
  destruct it as [id t]. now apply dict_get_In.
Qed.

Lemma flat_map_lookup lib (items : list (string * Track)) :
  (forall it, In it items -> dict_get lib (fst it) = Some (snd it)) ->
  flat_map (fun track_id => match dict_get lib track_id with
                            | Some t => [t]
                            | None => []
                            end) (map fst items)
  = map snd items.
Proof.
  induction items as [|it items IH]; intros H; [reflexivity|].
  simpl. rewrite (H it (in_eq _ _)). simpl. f_equal.
  apply IH. intros it' Hin. apply H, in_cons, Hin.
Qed.

(** The stored list of an album and what [get_album_tracks] returns for
    it, in terms of the tracks discovered for its key. *)
Lemma album_tracks_after_organize lib t key album :
  NoDup (dict_keys lib) ->
  let s := _organize_library (mkState lib [] [] t) in
  dict_get (albums s) key = Some album ->
  al_tracks album
  = sorted (track_number_of lib) (map fst (discovered lib key)) /\
  get_album_tracks s key
  = sorted t_track_number (map snd (discovered lib key)).
Proof.
  intros Hnd s Hget.
  assert (Hlib : library s = lib) by apply organize_library_library.
  pose proof Hget as Hs. unfold s in Hs.
  rewrite organize_library_albums in Hs.
  destruct (album_of_group (discovered lib key)) as [a|] eqn:G;
    [|discriminate].
  simpl in Hs. inversion Hs; subst album. clear Hs.
  pose proof (album_of_group_tracks _ _ G) as Gt.
  assert (Hst : al_tracks (sort_album lib a)
                = sorted (track_number_of lib) (map fst (discovered lib key))).
  { simpl. now rewrite Gt. }
  split; [exact Hst|].
  unfold get_album_tracks. rewrite Hget, Hlib, Hst.
  rewrite sorted_map.
  rewrite (sorted_ext _ (fun it => t_track_number (snd it))).
  - rewrite flat_map_lookup.
    + rewrite <- (sorted_map t_track_number snd). apply sorted_idempotent.
    + intros it Hin. apply sorted_In in Hin.
      now apply (lookup_discovered lib key).
  - intros it Hin. unfold track_number_of.
    now rewrite (lookup_discovered lib key it Hnd Hin).
Qed.

Lemma get_album_tracks_fields s s' key :
  library s = library s' -> albums s = albums s' ->
  get_album_tracks s key = get_album_tracks s' key.
Proof. intros Hl Ha. unfold get_album_tracks. now rewrite Hl, Ha. Qed.

(** C8. [get_album_tracks] returns a list in ascending order of
    [track_number] in every state. After the aggregation of
    [index_library], the stored track list of every album is in ascending
    order of the track numbers of its ids, and so is the list
    [get_album_tracks] returns for it; in both, the tracks with equal
    track numbers are those discovered for the album, in the order of
    their discovery. *)
Theorem C8_album_tracks_sorted :
  (forall s key, ascending t_track_number (get_album_tracks s key)) /\
  (forall env force s f,
     mount_server env = true ->
     andb (negb force) (fresh env s) = false ->
     organize_fault env = None ->
     let s' := snd (fst (index_library env force s f)) in
     forall key album,
       dict_get (albums s') key = Some album ->
       let found := discovered (library s') key in
       ascending (track_number_of (library s')) (al_tracks album) /\
       ties_keep_order (track_number_of (library s'))
         (map fst found) (al_tracks album) /\
       ascending t_track_number (get_album_tracks s' key) /\
       ties_keep_order t_track_number
         (map snd found) (get_album_tracks s' key)).
Proof.
  split.
  - intros s key. unfold get_album_tracks.
    destruct (dict_get (albums s) key); [apply sorted_ascending|constructor].
  - intros env force s f Hm Hf Ho s' key album Hget found.
    subst found s'. revert Hget.
    rewrite (index_library_scans env force s f Hm Hf Ho).
    cbn [fst snd library albums].
    set (s1 := _organize_library (mkState (scan env) [] [] (indexed_time s))).
    assert (Hlib : library s1 = scan env) by apply organize_library_library.
    rewrite Hlib. intros Hget.
    destruct (album_tracks_after_organize (scan env) (indexed_time s) key
                album (scan_NoDup env) Hget) as [Hst Hga].
    fold s1 in Hga.
    rewrite (get_album_tracks_fields _ s1 key)
      by (cbn [library albums]; congruence).
    rewrite Hst, Hga.
    repeat split;
      first [apply sorted_ascending | apply sorted_ties_keep_order].
Qed.

Lemma C8_album_tracks_sorted_witness :
  let s' := snd (fst (index_library tagged_env true empty None)) in
  let album := mkAlbum "AlbumX" "Artist"
                 ["2327962890952257307"; "8203146257606269228";
                  "-5916121997523035628"] 3 in
  ascending (track_number_of (library s')) (al_tracks album) /\
  ties_keep_order t_track_number
    (map snd (discovered (library s') "artist - albumx"))
    (get_album_tracks s' "artist - albumx").
Proof.
  intros s' album.
  assert (H : dict_get (albums s') "artist - albumx" = Some album)
    by (vm_compute; reflexivity).
  pose proof (proj2 C8_album_tracks_sorted tagged_env true empty None
                eq_refl eq_refl eq_refl "artist - albumx" album H) as W.
  split; [exact (proj1 W)|exact (proj2 (proj2 (proj2 W)))].
Defined.

(** ** Searching *)


Lemma contains_eq sub s0 :
  contains sub s0
  = if String.prefix sub s0 then true
    else match s0 with
         | EmptyString => false
         | String _ r => contains sub r
         end.
Proof. destruct s0; reflexivity. Qed.


(** [contains] is the substring test. *)
Lemma prefix_iff p s0 :
  String.prefix p s0 = true <-> exists post, s0 = String.append p post.
Proof.
  revert s0. induction p as [|c p IH]; intros s0.
  - split; [intros _; now exists s0|intros _; now destruct s0].
  - destruct s0 as [|d r]; simpl.
    + split; [discriminate|]. intros [post H]. discriminate.
    + destruct (ascii_dec c d) as [E|E].
      * subst d. rewrite IH.
        split; intros [post H]; exists post; [now rewrite H|now inversion H].
      * split; [discriminate|].
        intros [post H]. inversion H. congruence.
Qed.

Lemma contains_iff sub s0 :
  contains sub s0 = true
  <-> exists pre post, s0 = String.append pre (String.append sub post).
Proof.
  induction s0 as [|c r IH]; rewrite contains_eq.
  - destruct (String.prefix sub "") eqn:E.
    + apply prefix_iff in E as [post H]. split; [|reflexivity].
      intros _. now exists "", post.
    + split; [discriminate|]. intros [pre [post H]].
      destruct pre; simpl in H; [|discriminate].
      assert (String.prefix sub "" = true) by (apply prefix_iff; eauto).
      congruence.
  - destruct (String.prefix sub (String c r)) eqn:E.
    + apply prefix_iff in E as [post H]. split; [|reflexivity].
      intros _. now exists "", post.
    + rewrite IH. split.
      * intros [pre [post H]]. exists (String c pre), post. simpl. now rewrite H.
      * intros [pre [post H]]. destruct pre as [|d pre]; simpl in H.
        -- assert (String.prefix sub (String c r) = true)
             by (apply prefix_iff; eauto).
           congruence.
        -- inversion H. eauto.
Qed.


Lemma search_in_results albums0 query x :
  In x (search_in albums0 query) ->
  exists ka, In ka albums0 /\ matches (lower query) ka = true /\ x = summary ka.
Proof.
  unfold search_in. intros H. apply sorted_In in H.
  apply in_map_iff in H as [ka [E H]]. apply filter_In in H as [Hin Hm].
  exists ka. auto.
Qed.




(** ** The freshness gate *)

Lemma Qlt_bool_true a b : (a < b)%Q -> Qlt_bool a b = true.
Proof.
  intros H. unfold Qlt_bool. apply negb_true_iff.
  destruct (Qle_bool b a) eqn:E; [|reflexivity].
  apply Qle_bool_iff in E. lra.
Qed.

Lemma fresh_within_24h env s :
  albums s <> [] ->
  (time_at_check env - inject_Z (indexed_time s) < inject_Z 86400)%Q ->
  fresh env s = true.
Proof.
  intros Ha Ht. unfold fresh. apply andb_true_iff. split.
  - apply Qlt_bool_true. lra.
  - destruct (albums s); [contradiction|reflexivity].
Qed.

(** C7 fails on a share without audio files: the library stays empty, so
    the second call scans again and stamps a new [indexed_time]. *)
Lemma C7_counterexample : ~ C7_as_stated.
Proof.
  intros H.
  specialize (H bare_env (at_time bare_env (5000 # 1) (5001 # 1)) empty None
                eq_refl).
  cbv zeta in H.
  assert (Ht : (time_at_check (at_time bare_env (5000 # 1) (5001 # 1))
                - inject_Z (indexed_time
                              (snd (fst (index_library bare_env false empty None))))
                < inject_Z 86400)%Q) by (vm_compute; reflexivity).
  specialize (H Ht). vm_compute in H. discriminate H.
Qed.

(** C7 (amended). When the first call of [index_library] leaves at least
    one album, a second call with [force=false], the share mounted and the
    clock less than 24 hours past [indexed_time], returns [True] and
    leaves the library and the cache file as they are. *)
Theorem C7_fresh_index_is_noop :
  forall env1 env2 s f,
    mount_server env2 = true ->
    let s1 := snd (fst (index_library env1 false s f)) in
    let f1 := snd (index_library env1 false s f) in
    albums s1 <> [] ->
    (time_at_check env2 - inject_Z (indexed_time s1) < inject_Z 86400)%Q ->
    index_library env2 false s1 f1 = (Returned true, s1, f1).
Proof.
  intros env1 env2 s f Hm s1 f1 Ha Ht.
  unfold index_library at 1. rewrite Hm. simpl negb.
  now rewrite (fresh_within_24h env2 s1 Ha Ht).
Qed.

Lemma C7_fresh_index_is_noop_witness :
  let env2 := at_time (with_walk sample_env []) (5000 # 1) (5001 # 1) in
  index_library env2 false sample_state sample_file
  = (Returned true, sample_state, sample_file).
Proof.
  intros env2.
  assert (Ha : albums sample_state <> []) by (vm_compute; discriminate).
  assert (Ht : (time_at_check env2 - inject_Z (indexed_time sample_state)
                < inject_Z 86400)%Q) by (vm_compute; reflexivity).
  exact (C7_fresh_index_is_noop sample_env env2 empty None eq_refl Ha Ht).
Defined.

(** ** Errors during aggregation *)




(** ** Track ids *)

(** C3. The id [str(hash(file_path))] depends on the hash key of the
    process: for one path, the processes started with [PYTHONHASHSEED=1]
    and [PYTHONHASHSEED=2] compute different ids, and the libraries they
    index from the same tree have different keys. *)
Theorem C3_track_id_differs_between_processes :
  let file_path := "/home/jay/music_server/Artist/AlbumX/01 - Song.flac" in
  track_id (PyHash.secret_of_seed 1) file_path = "-8384710479420736860" /\
  track_id (PyHash.secret_of_seed 2) file_path = "7665349445727741210" /\
  dict_keys (scan sample_env)
  <> dict_keys (scan (in_process sample_env (PyHash.secret_of_seed 2))) /\
  ~ C3_as_stated.
Proof.
  split; [vm_compute; reflexivity|].
  split; [vm_compute; reflexivity|].
  split; [vm_compute; discriminate|].
  intros H.
  specialize (H (PyHash.secret_of_seed 1) (PyHash.secret_of_seed 2)
                "/home/jay/music_server/Artist/AlbumX/01 - Song.flac").
  vm_compute in H. discriminate H.
Qed.

(** ** Album and artist from the path *)

Lemma prefix_append p x : String.prefix p (String.append p x) = true.
Proof. apply prefix_iff. now exists x. Qed.

Lemma drop_prefix_Some p : forall s0 rest,
  drop_prefix p s0 = Some rest -> s0 = String.append p rest.
Proof.
  induction p as [|c p IH]; intros s0 rest H.
  - destruct s0; simpl in H; now inversion H.
  - destruct s0 as [|d r]; simpl in H; [discriminate|].
    destruct (Ascii.eqb c d) eqn:E; [|discriminate].
    apply Ascii.eqb_eq in E. subst d. simpl. f_equal. now apply IH.
Qed.

Lemma drop_prefix_append p rest : drop_prefix p (String.append p rest) = Some rest.
Proof.
  induction p as [|c p IH]; simpl; [now destruct rest|].
  now rewrite Ascii.eqb_refl.
Qed.

Lemma remove_all_from_skip old s1 rest :
  remove_all_from old (String.length s1) (String.append s1 rest)
  = remove_all_from old 0 rest.
Proof.
  induction s1 as [|c s1 IH]; simpl; [|exact IH].
  destruct rest; reflexivity.
Qed.

Lemma remove_all_from_absent old s0 :
  contains old s0 = false -> remove_all_from old 0 s0 = s0.
Proof.
  induction s0 as [|c r IH]; intros H; [reflexivity|].
  rewrite contains_eq in H.
  destruct (String.prefix old (String c r)) eqn:E; [discriminate|].
  cbn [remove_all_from]. rewrite E. f_equal. now apply IH.
Qed.

(** Removing a non-empty [old] from [old ++ rest] leaves [rest], when
    [old] does not occur in [rest]. *)
Lemma remove_all_leading old rest :
  old <> "" -> contains old rest = false ->
  remove_all old (String.append old rest) = rest.
Proof.
  intros Hne Habs. destruct old as [|c o]; [contradiction|].
  unfold remove_all.
  change (String.append (String c o) rest) with (String c (String.append o rest)).
  cbn [remove_all_from].
  change (String c (String.append o rest)) with (String.append (String c o) rest).
  rewrite prefix_append.
  cbn [String.length]. rewrite Nat.sub_1_r. cbn [Nat.pred].
  rewrite remove_all_from_skip. now apply remove_all_from_absent.
Qed.

Lemma nth_from_end_cons {A} k (x : A) l d :
  (k <= length l)%nat -> nth_from_end k (x :: l) d = nth_from_end k l d.
Proof.
  intros H. unfold nth_from_end. cbn [length].
  replace (S (length l) - k)%nat with (S (length l - k)) by lia.
  reflexivity.
Qed.

Lemma is_empty_true s0 : is_empty s0 = true <-> s0 = "".
Proof. destruct s0; simpl; split; intros; (reflexivity || discriminate). Qed.

(** The parts [_process_audio_file] counts for a file below the mount
    root whose relative path does not repeat the mount point: the empty
    string left of the first slash, then the components of the relative
    path. *)
Lemma fallback_parts rest :
  contains Config.MOUNT_POINT (String "/" rest) = false ->
  let file_path :=
    String.append Config.MOUNT_POINT (String "/" rest) in
  relative_components file_path = Some (split "/" rest) /\
  split "/" (remove_all Config.MOUNT_POINT file_path) = "" :: split "/" rest.
Proof.
  intros Habs file_path. split.
  - unfold relative_components, file_path.
    change (String.append Config.MOUNT_POINT (String "/" rest))
      with (String.append (String.append Config.MOUNT_POINT "/") rest).
    now rewrite drop_prefix_append.
  - unfold file_path. rewrite remove_all_leading; [reflexivity|discriminate|assumption].
Qed.

Ltac track_fields := cbn [t_artist t_album set_artist set_album].

(** What the fallback does in terms of the relative path: with three
    components or more an empty artist becomes the third from the end and
    an empty album the second from the end; with exactly two, an empty
    album still becomes the first of them, the directory of the file; with
    one, the track is left as it is. Fields that are not empty are kept. *)
Lemma path_fallback_by_components rest t :
  contains Config.MOUNT_POINT (String "/" rest) = false ->
  t_album t = "" \/ t_artist t = "" ->
  let file_path := String.append Config.MOUNT_POINT (String "/" rest) in
  let comps := split "/" rest in
  let t' := path_fallback file_path t in
  ((3 <= length comps)%nat ->
   (t_artist t = "" -> t_artist t' = nth_from_end 3 comps "") /\
   (t_album t = "" -> t_album t' = nth_from_end 2 comps "")) /\
  (length comps = 2%nat ->
   (t_album t = "" -> t_album t' = nth_from_end 2 comps "") /\
   t_artist t' = t_artist t) /\
  ((length comps <= 1)%nat -> t' = t) /\
  (t_artist t <> "" -> t_artist t' = t_artist t) /\
  (t_album t <> "" -> t_album t' = t_album t).
Proof.
  intros Habs Hempty file_path comps t'.
  destruct (fallback_parts rest Habs) as [_ Hparts]. fold file_path in Hparts.
  fold comps in Hparts.
  assert (Hor : orb (is_empty (t_album t)) (is_empty (t_artist t)) = true).
  { apply orb_true_iff. destruct Hempty as [H|H]; [left|right];
      now apply is_empty_true. }
  unfold t', path_fallback. rewrite Hor, Hparts. cbn [length].
  assert (Hart : forall v,
             is_empty (t_album (set_artist t v)) = is_empty (t_album t))
    by reflexivity.
  repeat split.
  - intros Hart0. destruct (3 <=? S (length comps))%nat eqn:E;
      [|apply Nat.leb_gt in E; lia].
    apply is_empty_true in Hart0. rewrite Hart0.
    destruct (is_empty (t_album (set_artist t _))); track_fields;
      now rewrite nth_from_end_cons by lia.
  - intros Halb0. destruct (3 <=? S (length comps))%nat eqn:E;
      [|apply Nat.leb_gt in E; lia].
    apply is_empty_true in Halb0.
    destruct (is_empty (t_artist t)); rewrite ?Hart, Halb0;
      track_fields; now rewrite nth_from_end_cons by lia.
  - intros Halb0. rewrite H. cbn [Nat.leb].
    apply is_empty_true in Halb0.
    destruct (is_empty (t_artist t)); rewrite ?Hart, Halb0;
      track_fields; now rewrite nth_from_end_cons by lia.
  - rewrite H. cbn [Nat.leb].
    destruct (is_empty (t_artist t)) eqn:Ea.
    + apply is_empty_true in Ea. rewrite Hart.
      destruct comps as [|a [|b [|c r]]]; try discriminate.
      destruct (is_empty (t_album t)); track_fields;
        now rewrite Ea.
    + now destruct (is_empty (t_album t)).
  - intros Hle. destruct (3 <=? S (length comps))%nat eqn:E; [|reflexivity].
    apply Nat.leb_le in E. lia.
  - intros Hne. destruct (is_empty (t_artist t)) eqn:Ea;
      [apply is_empty_true in Ea; contradiction|].
    destruct (3 <=? S (length comps))%nat; [|reflexivity].
    now destruct (is_empty (t_album t)).
  - intros Hne. destruct (is_empty (t_album t)) eqn:Ea;
      [apply is_empty_true in Ea; contradiction|].
    destruct (3 <=? S (length comps))%nat; [|reflexivity].
    destruct (is_empty (t_artist t)); rewrite ?Hart, ?Ea; reflexivity.
Qed.

(** C5. A file two levels below the mount root, [AlbumX/01 - Song.flac],
    has two components in its relative path, yet the fallback gives it the
    album [AlbumX]: the parts the code counts start with the empty string
    left of the first slash. *)
Theorem C5_two_components_get_an_album :
  let file_path := "/home/jay/music_server/AlbumX/01 - Song.flac" in
  relative_components file_path = Some ["AlbumX"; "01 - Song.flac"] /\
  split "/" (remove_all Config.MOUNT_POINT file_path)
  = [""; "AlbumX"; "01 - Song.flac"] /\
  t_album (path_fallback file_path (untagged file_path)) = "AlbumX" /\
  t_artist (path_fallback file_path (untagged file_path)) = "" /\
  map (fun kt => (t_artist (snd kt), t_album (snd kt))) (scan flat_env)
  = [("", "AlbumX")] /\
  ~ C5_as_stated.
Proof.
  repeat (split; [vm_compute; reflexivity|]).
  intros H.
  specialize (H "/home/jay/music_server/AlbumX/01 - Song.flac"
                ["AlbumX"; "01 - Song.flac"]
                (untagged "/home/jay/music_server/AlbumX/01 - Song.flac")
                eq_refl (or_introl eq_refl)).
  vm_compute in H. discriminate H.
Qed.

End LibraryFacts.

(** ** The cache *)

Section CacheFacts.
Import Json Config MusicLibrary.

(** *** What the decoder accepts *)

Ltac break_match H :=
  repeat match type of H with
    | context [match ?x with _ => _ end] => destruct x eqn:?; try discriminate H
    end.

Lemma parse_depth fuel :
  (forall ts v r, parse_value fuel ts = Some (v, r) -> depth ts = depth r) /\
  (forall ts vs r, parse_elems fuel ts = Some (vs, r) -> depth ts = depth r - 1) /\
  (forall ts kvs r,
     parse_members fuel ts = Some (kvs, r) -> depth ts = depth r - 1).
Proof.
  induction fuel as [|n [IHv [IHe IHm]]];
    [repeat split; intros; discriminate|].
  repeat split.
  - intros ts v r H. simpl in H. break_match H;
      inversion H; subst; clear H;
      repeat match goal with
        | E : parse_elems n _ = Some _ |- _ => apply IHe in E
        | E : parse_members n _ = Some _ |- _ => apply IHm in E
        end;
      cbn [depth opens] in *; lia.
  - intros ts vs r H. simpl in H. break_match H;
      inversion H; subst; clear H;
      repeat match goal with
        | E : parse_value n _ = Some _ |- _ => apply IHv in E
        | E : parse_elems n _ = Some _ |- _ => apply IHe in E
        end;
      cbn [depth opens] in *; lia.
  - intros ts kvs r H. simpl in H. break_match H;
      inversion H; subst; clear H;
      repeat match goal with
        | E : parse_value n _ = Some _ |- _ => apply IHv in E
        | E : parse_members n _ = Some _ |- _ => apply IHm in E
        end;
      cbn [depth opens] in *; lia.
Qed.

(** A text that decodes leaves no bracket open. *)
Lemma loads_depth ts v : loads ts = Some v -> depth ts = 0.
Proof.
  unfold loads. intros H.
  destruct (parse_value (S (length ts)) ts) as [[v' r]|] eqn:E;
    [|discriminate].
  destruct r; [|discriminate].
  now apply (proj1 (parse_depth _)) in E.
Qed.

(** *** What the encoder writes *)

Lemma depth_app ts1 ts2 : depth (ts1 ++ ts2) = depth ts1 + depth ts2.
Proof. induction ts1 as [|t r IH]; simpl; [reflexivity|]. rewrite IH. lia. Qed.


Lemma encode_members_ok enc first d :
  snd (encode_members enc first d) = forallb (fun kv => snd (enc (snd kv))) d.
Proof.
  revert first. induction d as [|[k x] r IH]; intros first; simpl; [reflexivity|].
  destruct (enc x) as [tx [|]]; simpl; [|reflexivity].
  specialize (IH false). destruct (encode_members enc false r). exact IH.
Qed.

Lemma depth_sep (first : bool) : depth (if first then [] else [TComma]) = 0.
Proof. now destruct first. Qed.

Lemma encode_items_depth enc l :
  Forall (balanced enc) l ->
  forall first,
    let r := encode_items enc first l in
    if snd r then depth (fst r) = -1 else 0 <= depth (fst r).
Proof.
  induction 1 as [|x l Hx Hl IH]; intros first; [reflexivity|].
  destruct Hx as [Hx0 Hx1]. cbn [encode_items].
  destruct (enc x) as [tx okx] eqn:E. cbn [fst snd] in *.
  destruct okx.
  - specialize (IH false). cbv zeta in IH.
    destruct (encode_items enc false l) as [tr okr].
    cbn [fst snd] in *. rewrite !depth_app, depth_sep, (Hx1 eq_refl).
    destruct okr; lia.
  - cbn [fst snd]. rewrite depth_app, depth_sep. lia.
Qed.

Lemma encode_members_depth enc d :
  Forall (fun kv => balanced enc (snd kv)) d ->
  forall first,
    let r := encode_members enc first d in
    if snd r then depth (fst r) = -1 else 0 <= depth (fst r).
Proof.
  induction 1 as [|[k x] d Hx Hd IH]; intros first; [reflexivity|].
  unfold balanced in Hx. cbn [snd] in Hx. destruct Hx as [Hx0 Hx1].
  cbn [encode_members].
  destruct (enc x) as [tx okx] eqn:E. cbn [fst snd] in *.
  destruct okx.
  - specialize (IH false). cbv zeta in IH.
    destruct (encode_members enc false d) as [tr okr].
    cbn [fst snd] in *. rewrite depth_app, depth_sep.
    cbn [depth opens]. rewrite depth_app, (Hx1 eq_refl).
    destruct okr; lia.
  - cbn [fst snd]. rewrite depth_app, depth_sep. cbn [depth opens]. lia.
Qed.

Lemma value_induction (P : value -> Prop) :
  P PNone -> (forall b, P (PBool b)) -> (forall z, P (PInt z)) ->
  (forall s, P (PStr s)) ->
  (forall l, Forall P l -> P (PList l)) ->
  (forall d, Forall (fun kv => P (snd kv)) d -> P (PDict d)) ->
  (forall l, Forall P l -> P (PSet l)) ->
  forall v, P v.
Proof.
  intros HN HB HI HS HL HD HT.
  fix IH 1. intros [| b | z | s | l | d | l].
  - exact HN.
  - apply HB.
  - apply HI.
  - apply HS.
  - apply HL. induction l as [|x r IHl]; constructor; [apply IH|exact IHl].
  - apply HD. induction d as [|[k x] r IHd]; constructor; [apply IH|exact IHd].
  - apply HT. induction l as [|x r IHl]; constructor; [apply IH|exact IHl].
Qed.

Lemma iterencode_balanced v : balanced iterencode v.
Proof.
  induction v as [| b | z | s | l IH | d IH | l IH] using value_induction;
    unfold balanced; cbn [iterencode].
  - cbn [fst snd depth opens]. split; [lia|reflexivity].
  - destruct b; cbn [fst snd depth opens]; (split; [lia|reflexivity]).
  - cbn [fst snd depth opens]. split; [lia|reflexivity].
  - cbn [fst snd depth opens]. split; [lia|reflexivity].
  - pose proof (encode_items_depth iterencode l IH true) as D. cbv zeta in D.
    destruct (encode_items iterencode true l) as [ts ok].
    cbn [fst snd depth opens] in *.
    destruct ok; (split; [lia|intros; first [lia|discriminate]]).
  - pose proof (encode_members_depth iterencode d IH true) as D. cbv zeta in D.
    destruct (encode_members iterencode true d) as [ts ok].
    cbn [fst snd depth opens] in *.
    destruct ok; (split; [lia|intros; first [lia|discriminate]]).
  - cbn [fst snd depth]. split; [lia|discriminate].
Qed.

(** When the encoder gives up inside a dictionary, what it wrote does not
    decode. *)
Lemma truncated_dict_does_not_load d :
  snd (iterencode (PDict d)) = false ->
  loads (fst (iterencode (PDict d))) = None.
Proof.
  intros Hfail.
  destruct (loads (fst (iterencode (PDict d)))) as [v|] eqn:E; [|reflexivity].
  apply loads_depth in E. exfalso.
  cbn [iterencode] in *.
  assert (F : Forall (fun kv => balanced iterencode (snd kv)) d).
  { apply Forall_forall. intros kv _. apply iterencode_balanced. }
  pose proof (encode_members_depth iterencode d F true) as D. cbv zeta in D.
  destruct (encode_members iterencode true d) as [ts ok].
  cbn [fst snd depth opens] in *. subst ok. lia.
Qed.

(** *** Decoding what the encoder wrote *)










(** *** Saving and loading *)

Lemma dict_object_ok {V} (f : V -> value) (d : dict V) :
  snd (iterencode (dict_object f d))
  = forallb (fun kv => snd (iterencode (f (snd kv)))) d.
Proof.
  unfold dict_object. cbn [iterencode].
  pose proof (encode_members_ok iterencode true
                (map (fun kv => (fst kv, f (snd kv))) d)) as E.
  destruct (encode_members iterencode true _) as [ts ok].
  cbn [fst snd] in *. rewrite E. clear E.
  induction d as [|kv r IHd]; [reflexivity|].
  cbn [map forallb snd fst]. now rewrite IHd.
Qed.

Lemma cache_data_fails s :
  artists s <> [] -> snd (iterencode (cache_data s)) = false.
Proof.
  intros Ha. unfold cache_data. cbn [iterencode].
  pose proof (encode_members_ok iterencode true
                [("tracks", dict_object track_object (library s));
                 ("albums", dict_object album_object (albums s));
                 ("artists", dict_object artist_object (artists s));
                 ("indexed_time", PInt (indexed_time s))]) as E.
  destruct (encode_members iterencode true _) as [ts ok].
  cbn [fst snd] in *. rewrite E. clear E.
  cbn [forallb snd]. rewrite (dict_object_ok artist_object).
  destruct (artists s) as [|[k a] r]; [contradiction|].
  cbn [forallb snd].
  assert (F : snd (iterencode (artist_object a)) = false) by reflexivity.
  rewrite F. cbn [andb]. now rewrite !andb_false_r.
Qed.

(** C1. For a library that has an artist, [save] logs an error (the
    [set] of album keys of the artist is not JSON serializable) and leaves
    a truncated text in the cache file, from which [load] returns the
    empty dictionary, not the library. *)
Theorem C1_saved_library_does_not_load :
  forall s f,
    artists s <> [] ->
    fst (MusicLibraryCache.save (cache_data s) f) = true /\
    MusicLibraryCache.load (snd (MusicLibraryCache.save (cache_data s) f))
    = Returned (PDict []) /\
    MusicLibraryCache.load (snd (MusicLibraryCache.save (cache_data s) f))
    <> Returned (cache_data s).
Proof.
  intros s f Ha.
  pose proof (cache_data_fails s Ha) as Hfail.
  pose proof (truncated_dict_does_not_load _ Hfail) as Hload.
  fold (cache_data s) in Hload.
  unfold MusicLibraryCache.save.
  destruct (iterencode (cache_data s)) as [ts ok].
  cbn [fst snd] in *. subst ok.
  unfold MusicLibraryCache.load. rewrite Hload.
  split; [reflexivity|]. split; [reflexivity|].
  unfold cache_data. discriminate.
Qed.

Lemma C1_saved_library_does_not_load_witness :
  library sample_state <> [] /\ albums sample_state <> [] /\
  artists sample_state <> [] /\
  MusicLibraryCache.load
    (snd (MusicLibraryCache.save (cache_data sample_state) None))
  = Returned (PDict []) /\
  ~ C1_as_stated.
Proof.
  assert (Ht : library sample_state <> []) by (vm_compute; discriminate).
  assert (Hl : albums sample_state <> []) by (vm_compute; discriminate).
  assert (Ha : artists sample_state <> []) by (vm_compute; discriminate).
  split; [exact Ht|]. split; [exact Hl|]. split; [exact Ha|].
  split.
  - exact (proj1 (proj2 (C1_saved_library_does_not_load sample_state None Ha))).
  - intros H.
    exact (proj2 (proj2 (C1_saved_library_does_not_load sample_state None Ha))
             (H sample_state None Ht Hl Ha)).
Defined.

(** The cache file that [index_library] leaves behind is such a truncated
    text: the process that starts next finds no library in it. *)
Lemma index_library_cache_does_not_load :
  fst (fst (index_library sample_env true empty None)) = Returned true /\
  MusicLibraryCache.load sample_file = Returned (PDict []).
Proof. split; vm_compute; reflexivity. Qed.

(** A file of bytes that do not decode makes [load] raise. *)
Lemma load_undecodable :
  MusicLibraryCache.load (Some Undecodable) = Raised UnicodeDecodeError.
Proof. reflexivity. Qed.




End CacheFacts.

(** ** More on the player *)

Section PlayerExtras.
Import Player.

(** X1. [set_volume] hands the backend the volume clamped to [0, 100]: the
    value itself inside the range, 0 below it and 100 above it. It reports
    success and touches no field of the player. *)
Theorem set_volume_clamps v p :
  exists v',
    set_volume v p = (true, with_vlc p [audio_set_volume v']) /\
    0 <= v' <= 100 /\
    (0 <= v <= 100 -> v' = v) /\
    (v < 0 -> v' = 0) /\
    (100 < v -> v' = 100).
Proof.
  exists (Z.max 0 (Z.min 100 v)). split; [reflexivity|]. lia.
Qed.

Lemma next_index p :
  1 < len p ->
  current_track_index (snd (next_track p)) = (current_track_index p + 1) mod len p.
Proof.
  intros H. unfold next_track. apply Z.leb_gt in H. now rewrite H.
Qed.

Lemma previous_index p :
  1 < len p ->
  current_track_index (snd (previous_track p))
  = (current_track_index p - 1) mod len p.
Proof.
  intros H. unfold previous_track. apply Z.leb_gt in H. now rewrite H.
Qed.

Lemma next_len p : len (snd (next_track p)) = len p.
Proof. unfold next_track. now destruct (len p <=? 1). Qed.

Lemma previous_len p : len (snd (previous_track p)) = len p.
Proof. unfold previous_track. now destruct (len p <=? 1). Qed.

(** X2. On a playlist of two tracks or more, with the index in range,
    [previous_track] undoes [next_track] and [next_track] undoes
    [previous_track]: the index is back where it was. *)
Theorem next_previous_inverse p :
  1 < len p -> 0 <= current_track_index p < len p ->
  current_track_index (snd (previous_track (snd (next_track p))))
  = current_track_index p /\
  current_track_index (snd (next_track (snd (previous_track p))))
  = current_track_index p.
Proof.
  intros Hlen Hi. split.
  - rewrite previous_index by now rewrite next_len.
    rewrite next_len, next_index by assumption.
    rewrite Zminus_mod_idemp_l.
    replace (current_track_index p + 1 - 1) with (current_track_index p) by lia.
    now apply Z.mod_small.
  - rewrite next_index by now rewrite previous_len.
    rewrite previous_len, previous_index by assumption.
    rewrite Zplus_mod_idemp_l.
    replace (current_track_index p - 1 + 1) with (current_track_index p) by lia.
    now apply Z.mod_small.
Qed.

Lemma next_previous_inverse_witness :
  let p := exec_all (init 70) demo_commands in
  current_track_index (snd (previous_track (snd (next_track p)))) = 1 /\
  current_track_index (snd (next_track (snd (previous_track p)))) = 1.
Proof.
  apply (next_previous_inverse (exec_all (init 70) demo_commands));
    vm_compute; intuition discriminate.
Defined.

(** X3. The ends of the playlist: from the last track [next_track] goes
    to the first, from the first [previous_track] goes to the last; with
    one track or none both report failure, call nothing on the backend and
    leave the player as it is. *)
Theorem skipping_wraps_around p :
  (1 < len p -> current_track_index p = len p - 1 ->
   current_track_index (snd (next_track p)) = 0) /\
  (1 < len p -> current_track_index p = 0 ->
   current_track_index (snd (previous_track p)) = len p - 1) /\
  (len p <= 1 -> next_track p = (false, p) /\ previous_track p = (false, p)).
Proof.
  split; [|split].
  - intros Hlen Hi. rewrite next_index, Hi by assumption.
    replace (len p - 1 + 1) with (len p) by lia. apply Z.mod_same. lia.
  - intros Hlen Hi. rewrite previous_index, Hi by assumption.
    symmetry. apply (Z.mod_unique _ _ (-1)); lia.
  - intros Hlen. apply Z.leb_le in Hlen.
    unfold next_track, previous_track. now rewrite Hlen.
Qed.

Lemma skipping_wraps_around_witness :
  let p := run (snd (load_playlist demo_album demo_tracks (init 70)))
             [OpPlay; OpNext; OpNext] in
  current_track_index p = 2 /\
  current_track_index (snd (next_track p)) = 0 /\
  next_track (init 70) = (false, init 70).
Proof.
  intros p. split; [reflexivity|]. split.
  - apply (proj1 (skipping_wraps_around p)); [vm_compute|]; reflexivity.
  - apply (proj2 (proj2 (skipping_wraps_around (init 70)))).
    vm_compute. discriminate.
Defined.

(** X4. While PLAYING on a playlist of two tracks or more, the end of a
    track moves the index exactly as [next_track] does, but calls nothing
    on the backend; on a playlist of one track it leaves the index at 0;
    in any other state it changes nothing. *)
Theorem media_end_advances_like_next p :
  (state p = PLAYING -> 1 < len p -> 0 <= current_track_index p < len p ->
   current_track_index (_on_media_end p)
   = current_track_index (snd (next_track p)) /\
   vlc (_on_media_end p) = vlc p) /\
  (state p = PLAYING -> len p = 1 -> current_track_index p = 0 ->
   current_track_index (_on_media_end p) = 0) /\
  (state p <> PLAYING -> _on_media_end p = p).
Proof.
  split; [|split].
  - intros Hs Hlen Hi. rewrite next_index by assumption.
    unfold _on_media_end, is_playing. rewrite Hs.
    destruct (current_track_index p + 1 >=? len p) eqn:E; cbn; (split; [|reflexivity]).
    + assert (H2 : current_track_index p + 1 = len p) by lia.
      rewrite H2. symmetry. apply Z.mod_same. lia.
    + symmetry. apply Z.mod_small. lia.
  - intros Hs Hlen Hi. unfold _on_media_end, is_playing.
    rewrite Hs, Hlen, Hi. reflexivity.
  - intros Hs. unfold _on_media_end, is_playing.
    destruct (state p); [reflexivity|contradiction|reflexivity].
Qed.

Lemma media_end_advances_like_next_witness :
  let p := exec_all (init 70) demo_commands in
  current_track_index (_on_media_end p) = 2 /\
  _on_media_end (init 70) = init 70.
Proof.
  intros p. split.
  - assert (H : current_track_index (snd (next_track p)) = 2) by reflexivity.
    rewrite <- H.
    apply (proj1 (media_end_advances_like_next p));
      vm_compute; intuition discriminate.
  - apply (proj2 (proj2 (media_end_advances_like_next (init 70)))).
    discriminate.
Defined.

(** X5. [stop] forgets neither the playlist nor the index: a [play] after
    it succeeds on a loaded playlist and asks the backend for the item at
    the index the player had, from any state. *)
Theorem play_after_stop_restarts_track p :
  current_playlist p <> [] ->
  let p' := snd (play (snd (stop p))) in
  fst (play (snd (stop p))) = true /\
  state p' = PLAYING /\
  current_track_index p' = current_track_index p /\
  current_playlist p' = current_playlist p /\
  vlc p' = vlc p ++ [list_player_stop;
                     list_player_play_item_at_index (current_track_index p)].
Proof.
  intros H p'. unfold p', play, stop. cbn.
  destruct (current_playlist p) eqn:E; [contradiction|].
  unfold _start_monitor. cbn.
  destruct (monitor_thread_alive p); cbn; rewrite ?E, <- ?app_assoc;
    repeat split.
Qed.

Lemma play_after_stop_restarts_track_witness :
  let p := exec_all (init 70) demo_commands in
  current_track_index (snd (play (snd (stop p)))) = 1.
Proof.
  intros p.
  apply (play_after_stop_restarts_track p). vm_compute. discriminate.
Defined.

(** X6. Loading a playlist that is not empty and playing it, from any
    state of the player: the backend is stopped, its media list emptied
    and filled with the paths of the tracks in their order, and asked for
    item 0; the player is PLAYING at index 0 with these tracks and this
    album. *)
Theorem load_then_play album tracks p :
  tracks <> [] ->
  let p' := snd (play (snd (load_playlist album tracks p))) in
  fst (play (snd (load_playlist album tracks p))) = true /\
  state p' = PLAYING /\
  current_track_index p' = 0 /\
  current_playlist p' = tracks /\
  current_album p' = Some album /\
  vlc p' = vlc p ++ [list_player_stop; media_list_remove_all]
             ++ map (fun t => media_list_add_media (pl_path t)) tracks
             ++ [list_player_play_item_at_index 0].
Proof.
  intros H p'. unfold p', play, load_playlist, stop. cbn.
  destruct tracks as [|t r]; [contradiction|].
  unfold _start_monitor. cbn.
  destruct (monitor_thread_alive p); cbn; rewrite <- ?app_assoc; cbn;
    repeat split.
Qed.

Lemma load_then_play_witness :
  state (snd (play (snd (load_playlist demo_album demo_tracks (init 70)))))
  = PLAYING.
Proof.
  apply (load_then_play demo_album demo_tracks (init 70)). discriminate.
Defined.

Lemma step_keeps_playlist p op :
  current_playlist (step p op) = current_playlist p.
Proof.
  destruct op; cbn; try reflexivity.
  - unfold play, _start_monitor.
    destruct (current_playlist p) eqn:E; cbn; [assumption|].
    destruct (is_paused p); cbn; destruct (monitor_thread_alive p); cbn;
      assumption.
  - unfold pause. now destruct (is_playing p).
  - unfold next_track. now destruct (len p <=? 1).
  - unfold previous_track. now destruct (len p <=? 1).
  - unfold _on_media_end. destruct (is_playing p); [|reflexivity].
    now destruct (_ >=? _).
Qed.

Lemma exec_loaded_in_range p c :
  loaded_in_range p -> loaded_in_range (exec p c).
Proof.
  unfold loaded_in_range. intros H. destruct c as [a t|op]; cbn [exec].
  - intros Ht. now apply load_playlist_index_in_range.
  - rewrite step_keeps_playlist. intros Hp.
    apply step_index_in_range, H, Hp.
Qed.

Lemma exec_all_active_in_range p0 cs :
  loaded_in_range p0 -> active_has_playlist p0 ->
  let p := exec_all p0 cs in
  state p <> STOPPED -> 0 <= current_track_index p < len p.
Proof.
  intros Hl Ha p H.
  assert (Hl' : loaded_in_range p).
  { unfold p, exec_all. apply fold_left_invariant; [|exact Hl].
    intros q c. apply exec_loaded_in_range. }
  apply Hl'. now apply (exec_all_active_has_playlist cs p0).
Qed.

Lemma reachable_active_in_range v cs :
  let p := exec_all (init v) cs in
  state p <> STOPPED -> 0 <= current_track_index p < len p.
Proof.
  apply exec_all_active_in_range.
  - intros H. now contradiction H.
  - apply init_active_has_playlist.
Qed.

Lemma exec_keeps_callback p c : status_callback (exec p c) = status_callback p.
Proof.
  destruct c as [a t|op]; cbn; [reflexivity|].
  destruct op; cbn; try reflexivity.
  - unfold play, _start_monitor. destruct (current_playlist p); [reflexivity|].
    destruct (is_paused p); cbn; now destruct (monitor_thread_alive p).
  - unfold pause. now destruct (is_playing p).
  - unfold next_track. now destruct (len p <=? 1).
  - unfold previous_track. now destruct (len p <=? 1).
  - unfold _on_media_end. destruct (is_playing p); [|reflexivity].
    now destruct (_ >=? _).
Qed.

Lemma exec_all_keeps_callback cs : forall p,
  status_callback (exec_all p cs) = status_callback p.
Proof.
  induction cs as [|c cs IH]; intros p; [reflexivity|].
  cbn. unfold exec_all in IH. now rewrite IH, exec_keeps_callback.
Qed.

Lemma nth_error_in_range {A} (l : list A) i :
  0 <= i < Z.of_nat (length l) -> exists x, nth_error l (Z.to_nat i) = Some x.
Proof.
  intros H. destruct (nth_error l (Z.to_nat i)) as [x|] eqn:E; [now exists x|].
  apply nth_error_None in E. lia.
Qed.

(** X7. On every player reached from [__init__], the status carries a
    current track exactly when the player is not stopped: it is then the
    track of the playlist at [current_track_index], with the position of
    the backend while PLAYING and 0 while PAUSED, and the index is shown
    counted from 1 out of the length of the playlist. *)
Theorem get_status_has_track_unless_stopped v cs b :
  let p := exec_all (init v) cs in
  (state p = STOPPED -> st_now (get_status b p) = None) /\
  (state p <> STOPPED ->
   exists track,
     nth_error (current_playlist p) (Z.to_nat (current_track_index p))
     = Some track /\
     st_now (get_status b p)
     = Some (mkNow track
               (if is_playing p then get_position b else 0%Q)
               (String.append (str_of_int (current_track_index p + 1))
                  (String.append "/" (str_of_int (len p)))))).
Proof.
  intros p. split.
  - intros H. unfold get_status, is_stopped. now rewrite H.
  - intros H. pose proof (reachable_active_in_range v cs H) as Hi.
    fold p in Hi.
    destruct (nth_error_in_range (current_playlist p) (current_track_index p) Hi)
      as [track Ht].
    exists track. split; [exact Ht|].
    unfold get_status, is_stopped, index_valid.
    assert (E1 : (0 <=? current_track_index p) = true) by (apply Z.leb_le; lia).
    assert (E2 : (current_track_index p <? len p) = true)
      by (apply Z.ltb_lt; lia).
    rewrite E1, E2, Ht. cbn.
    destruct (state p); [contradiction|reflexivity|reflexivity].
Qed.

Lemma get_status_has_track_unless_stopped_witness :
  let p := exec_all (init 70) demo_commands in
  exists track,
    nth_error (current_playlist p) (Z.to_nat (current_track_index p))
    = Some track /\
    st_now (get_status (mkBackend 70 (1 # 4)) p)
    = Some (mkNow track (1 # 4) "2/3").
Proof.
  apply (proj2 (get_status_has_track_unless_stopped 70 demo_commands
                  (mkBackend 70 (1 # 4)))).
  vm_compute. discriminate.
Defined.

(** X8. Nothing a controller or the backend can do stops the monitoring
    thread: on a player reached from [__init__], once a [play] has
    succeeded, [monitor_running] stays set and the thread stays alive
    through every later command, [stop] and [load_playlist] included. *)
Theorem monitor_never_stops v cs1 cs2 :
  let p := exec_all (init v) cs1 in
  fst (play p) = true ->
  let p' := exec_all (snd (play p)) cs2 in
  monitor_running p' = true /\ monitor_thread_alive p' = true.
Proof.
  intros p Hplay p'.
  assert (Hagree : monitor_flags_agree p).
  { unfold p, exec_all. apply fold_left_invariant; [|reflexivity].
    intros q c Hq. unfold monitor_flags_agree in *.
    destruct c as [a t|op]; cbn; [exact Hq|].
    destruct op; cbn; try exact Hq.
    - unfold play, _start_monitor. destruct (current_playlist q); [exact Hq|].
      destruct (is_paused q); cbn;
        destruct (monitor_thread_alive q) eqn:E; cbn;
        first [reflexivity | now rewrite <- Hq, E].
    - unfold pause. now destruct (is_playing q).
    - unfold next_track. now destruct (len q <=? 1).
    - unfold previous_track. now destruct (len q <=? 1).
    - unfold _on_media_end. destruct (is_playing q); [|exact Hq].
      now destruct (_ >=? _). }
  assert (Hstart : monitor_running (snd (play p)) = true
                   /\ monitor_thread_alive (snd (play p)) = true).
  { unfold monitor_flags_agree in Hagree. revert Hplay.
    unfold play, _start_monitor.
    destruct (current_playlist p); [discriminate|]. intros _.
    destruct (is_paused p); cbn;
      destruct (monitor_thread_alive p) eqn:E; cbn;
      rewrite <- ?Hagree, ?E; auto. }
  unfold p', exec_all. apply fold_left_invariant; [|exact Hstart].
  intros q c [Hr Ha]. destruct c as [a t|op]; cbn; [auto|].
  destruct op; cbn; auto.
  - unfold play, _start_monitor. destruct (current_playlist q); [auto|].
    destruct (is_paused q); cbn; rewrite Ha; cbn; auto.
  - unfold pause. destruct (is_playing q); auto.
  - unfold next_track. destruct (len q <=? 1); auto.
  - unfold previous_track. destruct (len q <=? 1); auto.
  - unfold _on_media_end. destruct (is_playing q); [|auto].
    destruct (_ >=? _); auto.
Qed.

Lemma monitor_never_stops_witness :
  let p' := exec_all (snd (play (exec_all (init 70)
                                   [Load demo_album demo_tracks])))
              [Apply OpStop; Load demo_album []; Apply OpPause] in
  monitor_running p' = true /\ monitor_thread_alive p' = true.
Proof.
  apply (monitor_never_stops 70 [Load demo_album demo_tracks]
           [Apply OpStop; Load demo_album []; Apply OpPause]).
  reflexivity.
Defined.

Lemma Qabs_self_small (x : Q) : Qlt_bool (5 # 100) (Qabs (x - x)) = false.
Proof.
  unfold Qlt_bool. apply negb_false_iff, Qle_bool_iff.
  assert (E : (x - x == 0)%Q) by ring.
  rewrite E. discriminate.
Qed.

(** X9. The monitoring loop reports nothing while the player is not
    PLAYING, and it never reports twice in a row for the same track at
    the same position: after one turn of the loop, a turn that finds the
    same player and the same backend position is silent and keeps the
    variables of the loop. *)
Theorem monitor_reports_changes_only b p m :
  (state p <> PLAYING -> monitor_turn b p m = (m, None)) /\
  monitor_turn b p (fst (monitor_turn b p m))
  = (fst (monitor_turn b p m), None).
Proof.
  split.
  - intros H. unfold monitor_turn, is_playing.
    destruct (state p); [reflexivity|contradiction|reflexivity].
  - unfold monitor_turn at 2 3.
    destruct (is_playing p) eqn:Ep; cbn [fst];
      [|unfold monitor_turn; now rewrite Ep].
    destruct (orb _ _) eqn:Ec.
    + assert (Em : fst (match status_callback p with
                        | Some _ =>
                            (mkMemory (current_track_index p) (get_position b),
                             Some (mkReport (state_name (state p))
                                     (current_album p)
                                     (if index_valid p
                                      then nth_error (current_playlist p)
                                             (Z.to_nat (current_track_index p))
                                      else None)
                                     (get_position b) (get_volume b p)))
                        | None =>
                            (mkMemory (current_track_index p) (get_position b),
                             None)
                        end)
                   = mkMemory (current_track_index p) (get_position b))
        by now destruct (status_callback p).
      rewrite Em. unfold monitor_turn. rewrite Ep. cbn [last_track_index last_position].
      now rewrite Z.eqb_refl, Qabs_self_small.
    + cbn [fst]. unfold monitor_turn. now rewrite Ep, Ec.
Qed.

Lemma monitor_reports_changes_only_witness :
  monitor_turn (mkBackend 70 (1 # 4)) (init 70) monitor_start
  = (monitor_start, None).
Proof.
  apply (proj1 (monitor_reports_changes_only (mkBackend 70 (1 # 4)) (init 70)
                  monitor_start)).
  discriminate.
Defined.

(** X10. Once a callback is registered on a new player, whatever the
    commands that follow, the first turn of the monitoring loop that finds
    the player PLAYING with a backend position that is not negative hands
    the callback the track at [current_track_index] and that position. *)
Theorem monitor_first_report v cb cs b :
  let p := exec_all (set_status_callback cb (init v)) cs in
  state p = PLAYING ->
  (0 <= get_position b)%Q ->
  exists track,
    nth_error (current_playlist p) (Z.to_nat (current_track_index p))
    = Some track /\
    monitor_turn b p monitor_start
    = (mkMemory (current_track_index p) (get_position b),
       Some (mkReport "PLAYING" (current_album p) (Some track)
               (get_position b) (audio_get_volume b))).
Proof.
  intros p Hs Hpos.
  assert (Hcb : status_callback p = Some cb)
    by (unfold p; now rewrite exec_all_keeps_callback).
  assert (Hne : state p <> STOPPED) by (rewrite Hs; discriminate).
  assert (Hi : 0 <= current_track_index p < len p).
  { apply (exec_all_active_in_range (set_status_callback cb (init v)) cs);
      [intros H; now contradiction H|intros H; now contradiction H|exact Hne]. }
  destruct (nth_error_in_range (current_playlist p) (current_track_index p) Hi)
    as [track Ht].
  exists track. split; [exact Ht|].
  unfold monitor_turn, is_playing, index_valid, get_volume. rewrite Hs, Hcb, Ht.
  cbn [monitor_start last_track_index last_position state_name].
  assert (E0 : (current_track_index p =? -1) = false) by (apply Z.eqb_neq; lia).
  assert (E1 : (0 <=? current_track_index p) = true) by (apply Z.leb_le; lia).
  assert (E2 : (current_track_index p <? len p) = true)
    by (apply Z.ltb_lt; lia).
  rewrite E0, E1, E2. reflexivity.
Qed.

Lemma monitor_first_report_witness :
  let p := exec_all (set_status_callback 1 (init 70)) demo_commands in
  exists track,
    nth_error (current_playlist p) (Z.to_nat (current_track_index p))
    = Some track /\
    monitor_turn (mkBackend 70 (1 # 4)) p monitor_start
    = (mkMemory (current_track_index p) (1 # 4),
       Some (mkReport "PLAYING" (current_album p) (Some track) (1 # 4) 70)).
Proof.
  apply (monitor_first_report 70 1%nat demo_commands (mkBackend 70 (1 # 4)));
    [reflexivity|discriminate].
Defined.

End PlayerExtras.

(** ** More on the library *)

Section LibraryExtras.
Import MusicLibrary.

Lemma fold_left_invariant_in {A B} (P : A -> Prop) (f : A -> B -> A) l :
  (forall a b, In b l -> P a -> P (f a b)) ->
  forall a, P a -> P (fold_left f l a).
Proof.
  induction l as [|b l IH]; intros Hf a Ha; [exact Ha|].
  cbn. apply IH.
  - intros a' b' Hb. apply Hf. now right.
  - apply Hf; [now left|exact Ha].
Qed.

Lemma In_dict_set {V} (d : dict V) k v k' v' :
  In (k', v') (dict_set d k v) -> (k', v') = (k, v) \/ In (k', v') d.
Proof.
  induction d as [|[k0 v0] r IH]; cbn.
  - intros [H|[]]. left. now symmetry.
  - destruct (String.eqb k0 k) eqn:E; cbn.
    + apply String.eqb_eq in E. subst k0.
      intros [H|H]; [left; now symmetry|right; now right].
    + intros [H|H]; [right; now left|].
      destruct (IH H) as [H'|H']; [now left|right; now right].
Qed.

Lemma copy_tag_path tags key set t t' :
  (forall u v, t_path (set u v) = t_path u /\ t_filename (set u v) = t_filename u) ->
  copy_tag tags key set t = Some t' ->
  t_path t' = t_path t /\ t_filename t' = t_filename t.
Proof.
  intros Hset. unfold copy_tag.
  destruct (dict_get tags key) as [[|v vs]|]; intros E; inversion E; subst;
    [apply Hset|auto].
Qed.

Lemma copy_track_number_path tags t :
  t_path (copy_track_number tags t) = t_path t /\
  t_filename (copy_track_number tags t) = t_filename t.
Proof.
  unfold copy_track_number.
  destruct (dict_get tags "tracknumber") as [[|v vs]|]; auto.
  destruct (int_of_str _); auto.
Qed.

Lemma extract_tags_path audio t t' :
  extract_tags audio t = Some t' ->
  t_path t' = t_path t /\ t_filename t' = t_filename t.
Proof.
  assert (Ha : forall u v, t_path (set_album u v) = t_path u
                           /\ t_filename (set_album u v) = t_filename u)
    by (intros; split; reflexivity).
  assert (Hr : forall u v, t_path (set_artist u v) = t_path u
                           /\ t_filename (set_artist u v) = t_filename u)
    by (intros; split; reflexivity).
  assert (Ht : forall u v, t_path (set_title u v) = t_path u
                           /\ t_filename (set_title u v) = t_filename u)
    by (intros; split; reflexivity).
  destruct audio as [tags len|id3 len|len]; cbn [extract_tags].
  - unfold flac_tags.
    destruct (copy_tag tags "album" set_album t) as [t1|] eqn:E1; [|discriminate].
    destruct (copy_tag tags "artist" set_artist t1) as [t2|] eqn:E2; [|discriminate].
    destruct (copy_tag tags "title" set_title t2) as [t3|] eqn:E3; [|discriminate].
    intros E. inversion E; subst. cbn [t_path t_filename set_duration].
    destruct (copy_track_number_path tags t3) as [P3 F3].
    destruct (copy_tag_path _ _ _ _ _ Ha E1) as [P1 F1].
    destruct (copy_tag_path _ _ _ _ _ Hr E2) as [P2 F2].
    destruct (copy_tag_path _ _ _ _ _ Ht E3) as [P3' F3'].
    split; congruence.
  - intros E. inversion E; subst. unfold mp3_tags.
    cbn [t_path t_filename set_duration].
    destruct id3 as [id3|]; [|split; reflexivity].
    destruct (copy_tag id3 "album" set_album t) as [t1|] eqn:E1;
      [|split; reflexivity].
    destruct (copy_tag_path _ _ _ _ _ Ha E1) as [P1 F1].
    destruct (copy_tag id3 "artist" set_artist t1) as [t2|] eqn:E2;
      [|cbn; split; assumption].
    destruct (copy_tag_path _ _ _ _ _ Hr E2) as [P2 F2].
    destruct (copy_tag id3 "title" set_title t2) as [t3|] eqn:E3;
      [|cbn; split; congruence].
    destruct (copy_tag_path _ _ _ _ _ Ht E3) as [P3 F3].
    destruct (copy_track_number_path id3 t3) as [P4 F4].
    split; congruence.
  - intros E. inversion E; subst. unfold other_tags.
    destruct len; split; reflexivity.
Qed.

Lemma path_fallback_path file_path t :
  t_path (path_fallback file_path t) = t_path t /\
  t_filename (path_fallback file_path t) = t_filename t.
Proof.
  unfold path_fallback.
  destruct (orb _ _); [|auto].
  destruct (3 <=? _)%nat; [|auto].
  destruct (is_empty (t_artist t)); cbn;
    match goal with
    | |- context [if ?b then _ else _] => destruct b
    end; auto.
Qed.

(** X11. Every track of the library that a scan builds comes from a file
    of the walk whose name does not start with a dot and ends, in lower
    case, with one of the supported extensions; its path is the directory
    joined with the name, its file name the last component of the path,
    and its id the hash of the path. *)
Theorem scan_indexes_audio_files_only env id t :
  In (id, t) (scan env) ->
  from_walk env t /\ id = track_id (hash_secret env) (t_path t).
Proof.
  revert id t. unfold scan.
  apply (fold_left_invariant_in
           (fun lib => forall id t, In (id, t) lib ->
              from_walk env t /\ id = track_id (hash_secret env) (t_path t)));
    [|intros id t []].
  intros lib [root files] Hdir Hlib. cbn [fst snd].
  apply (fold_left_invariant_in
           (fun lib => forall id t, In (id, t) lib ->
              from_walk env t /\ id = track_id (hash_secret env) (t_path t)));
    [|exact Hlib].
  clear lib Hlib. intros lib file Hfile Hlib id t.
  unfold scan_file.
  destruct (startswith file "._") eqn:Eh; [apply Hlib|].
  destruct (endswith_any (lower file) supported_extensions) eqn:Ee;
    [|apply Hlib].
  unfold _process_audio_file.
  destruct (orb _ _) eqn:Ed; [apply Hlib|].
  destruct (MutagenFile env (path_join root file)); try apply Hlib.
  destruct (getsize env (path_join root file)) as [size|]; [|apply Hlib].
  destruct (extract_tags audio _) as [t1|] eqn:Et; [|apply Hlib].
  intros Hin. apply In_dict_set in Hin as [Hin|Hin]; [|now apply Hlib].
  inversion Hin; subst. clear Hin.
  destruct (extract_tags_path _ _ _ Et) as [P1 F1].
  destruct (path_fallback_path (path_join root file) t1) as [P2 F2].
  cbn [t_path t_filename] in P1, F1.
  apply orb_false_iff in Ed as [Ed _].
  split.
  - exists root, files, file. repeat split; try assumption; congruence.
  - now rewrite P2, P1.
Qed.

Lemma scan_indexes_audio_files_only_witness :
  from_walk sample_env
    (mkTrack "/home/jay/music_server/Artist/AlbumX/01 - Song.flac"
       "01 - Song.flac" 1000 "AlbumX" "Artist" "" 0 180).
Proof.
  apply (scan_indexes_audio_files_only sample_env "-8384710479420736860").
  vm_compute. left. reflexivity.
Defined.

Lemma fold_left_filter_noop {A B} (f : A -> B -> A) (keep : B -> bool) l :
  (forall a b, keep b = false -> f a b = a) ->
  forall a, fold_left f (filter keep l) a = fold_left f l a.
Proof.
  intros H. induction l as [|b l IH]; intros a; [reflexivity|].
  cbn. destruct (keep b) eqn:E; cbn; [apply IH|].
  now rewrite (H a b E).
Qed.

Lemma scan_file_failing env root file lib :
  extraction_fails env (path_join root file) = true ->
  scan_file env root file lib = lib.
Proof.
  unfold extraction_fails, scan_file, _process_audio_file. intros H.
  destruct (startswith file "._"); [reflexivity|].
  destruct (endswith_any _ _); [|reflexivity].
  destruct (orb _ _); [reflexivity|].
  destruct (MutagenFile env (path_join root file)); try reflexivity.
  destruct (getsize env (path_join root file)); [|reflexivity].
  destruct (extract_tags _ _); [discriminate|reflexivity].
Qed.

(** X12. A file whose reading fails neither stops the scan nor leaves a
    trace in it: the library is the one the scan builds from the walk
    without these files. *)
Theorem scan_skips_failing_files env :
  scan (without_failing env) = scan env.
Proof.
  unfold scan, without_failing. cbn [walk with_walk].
  generalize (@nil (string * Track)).
  induction (walk env) as [|[root files] dirs IH]; intros lib; [reflexivity|].
  cbn [map fold_left fst snd]. rewrite IH. f_equal.
  change (fold_left
            (fun library file =>
               scan_file (with_walk env (walk (without_failing env))) root file
                 library)
            (filter (fun file =>
                       negb (extraction_fails env (path_join root file)))
               files) lib
          = fold_left (fun library file => scan_file env root file library)
              files lib).
  rewrite (fold_left_filter_noop
             (fun library file => scan_file env root file library)).
  - reflexivity.
  - intros a b Hb. apply scan_file_failing. now apply negb_false_iff.
Qed.


Lemma dict_get_Some_In {V} (d : dict V) k v :
  dict_get d k = Some v -> In (k, v) d.
Proof.
  induction d as [|[k0 v0] r IH]; cbn; [discriminate|].
  destruct (String.eqb k0 k) eqn:E.
  - apply String.eqb_eq in E. subst k0. intros H. inversion H. now left.
  - intros H. right. now apply IH.
Qed.

Lemma NoDup_keys_filter {V} (keep : string * V -> bool) (d : dict V) :
  NoDup (dict_keys d) -> NoDup (dict_keys (filter keep d)).
Proof.
  unfold dict_keys. induction d as [|kv r IH]; cbn; intros H; [constructor|].
  inversion H as [|x l Hn Hr]; subst.
  destruct (keep kv); cbn; [|now apply IH].
  constructor; [|now apply IH].
  intros C. apply Hn. apply in_map_iff in C as [kv' [E C]].
  apply filter_In in C as [C _]. apply in_map_iff. now exists kv'.
Qed.

Lemma index_library_ran env force s f s' f' :
  index_library env force s f = (Returned true, s', f') ->
  andb (negb force) (fresh env s) = false ->
  let s1 := _organize_library (mkState (scan env) [] [] (indexed_time s)) in
  library s' = scan env /\ albums s' = albums s1 /\ artists s' = artists s1.
Proof.
  unfold index_library. intros H Hf.
  destruct (negb (mount_server env)); [discriminate|].
  rewrite Hf in H.
  destruct (organize_fault env); [discriminate|].
  inversion H; subst. cbn [library albums artists].
  now rewrite organize_library_library.
Qed.

Lemma organize_albums_consistent lib time key album :
  NoDup (dict_keys lib) ->
  dict_get (albums (_organize_library (mkState lib [] [] time))) key
  = Some album ->
  al_tracks album <> [] /\
  NoDup (al_tracks album) /\
  al_track_count album = Z.of_nat (length (al_tracks album)) /\
  lower (String.append (al_artist album)
           (String.append " - " (al_name album))) = key /\
  forall id,
    In id (al_tracks album) <->
    exists t, dict_get lib id = Some t /\ album_key_of t = key.
Proof.
  intros Hnd H. rewrite organize_library_albums in H.
  destruct (discovered lib key) as [|it g] eqn:G; [discriminate|].
  cbn [album_of_group option_map] in H. inversion H; subst album. clear H.
  cbn [sort_album al_tracks al_track_count al_name al_artist].
  pose proof (sorted_perm (track_number_of lib) (map fst (it :: g))) as P.
  assert (Hit : In it (discovered lib key)) by (rewrite G; now left).
  split; [|split; [|split; [|split]]].
  - intros C.
    assert (E : sorted (track_number_of lib) (map fst (it :: g)) = [])
      by exact C.
    rewrite E in P. now apply Permutation_nil_cons in P.
  - apply (Permutation_NoDup (Permutation_sym P)).
    rewrite <- G. now apply (NoDup_keys_filter _ lib).
  - change (Z.of_nat (length (it :: g))
            = Z.of_nat (length (sorted (track_number_of lib)
                                  (map fst (it :: g))))).
    rewrite (Permutation_length P), length_map. reflexivity.
  - apply filter_In in Hit as [_ Hit]. now apply String.eqb_eq in Hit.
  - intros id.
    change (In id (sorted (track_number_of lib) (map fst (it :: g))) <->
            exists t, dict_get lib id = Some t /\ album_key_of t = key).
    rewrite sorted_In, <- G. split.
    + intros Hin. apply in_map_iff in Hin as [[id' t] [E Hin]].
      cbn in E. subst id'. exists t. split.
      * exact (lookup_discovered lib key (id, t) Hnd Hin).
      * apply filter_In in Hin as [_ Hin]. now apply String.eqb_eq in Hin.
    + intros [t [Hget Hkey]]. apply in_map_iff. exists (id, t).
      split; [reflexivity|]. apply filter_In. split.
      * now apply dict_get_Some_In.
      * now apply String.eqb_eq.
Qed.

(** X13. After an indexing run, the albums partition the library: an
    album lists, without repetition, exactly the ids of the library
    tracks whose album key ("artist - album" in lower case) is the key of
    the album; it is not empty, its track count is the length of its
    list, and its key is the lower-cased "artist - name" of the album. *)
Theorem index_builds_consistent_albums env force s f s' f' key album :
  index_library env force s f = (Returned true, s', f') ->
  andb (negb force) (fresh env s) = false ->
  dict_get (albums s') key = Some album ->
  al_tracks album <> [] /\
  NoDup (al_tracks album) /\
  al_track_count album = Z.of_nat (length (al_tracks album)) /\
  lower (String.append (al_artist album)
           (String.append " - " (al_name album))) = key /\
  forall id,
    In id (al_tracks album) <->
    exists t, dict_get (library s') id = Some t /\ album_key_of t = key.
Proof.
  intros H Hf Hget.
  destruct (index_library_ran _ _ _ _ _ _ H Hf) as [El [Ea _]].
  rewrite El. rewrite Ea in Hget.
  exact (organize_albums_consistent _ _ _ _ (scan_NoDup env) Hget).
Qed.

Lemma index_builds_consistent_albums_witness :
  In "-7887328263489356057"
    ["-8384710479420736860"; "-7887328263489356057"] <->
  exists t, dict_get (library sample_state) "-7887328263489356057" = Some t
            /\ album_key_of t = "artist - albumx".
Proof.
  assert (H : index_library sample_env false empty None
              = (Returned true, sample_state, sample_file))
    by (vm_compute; reflexivity).
  assert (Hf : andb (negb false) (fresh sample_env empty) = false)
    by (vm_compute; reflexivity).
  assert (Hg : dict_get (albums sample_state) "artist - albumx"
               = Some (mkAlbum "AlbumX" "Artist"
                         ["-8384710479420736860"; "-7887328263489356057"] 2))
    by (vm_compute; reflexivity).
  exact (proj2 (proj2 (proj2 (proj2
           (index_builds_consistent_albums sample_env false empty None
              sample_state sample_file "artist - albumx" _ H Hf Hg))))
           "-7887328263489356057").
Defined.

Lemma fold_organize_artists items : forall al ar,
  snd (fold_left organize_track items (al, ar))
  = fold_left (fun ar it => add_to_artists ar (fst it) (snd it)) items ar.
Proof.
  induction items as [|it items IH]; intros al ar; cbn; [reflexivity|].
  apply IH.
Qed.

Lemma add_to_artists_group done ar id t :
  artists_group done ar ->
  artists_group (done ++ [(id, t)]) (add_to_artists ar id t).
Proof.
  intros Inv key. unfold add_to_artists.
  rewrite dict_get_modify. unfold by_artist. rewrite filter_app.
  fold (by_artist done key). cbn [filter snd].
  destruct (String.eqb (artist_key_of t) key) eqn:E.
  - apply String.eqb_eq in E. subst key.
    unfold dict_mem. rewrite (Inv (artist_key_of t)).
    destruct (by_artist done (artist_key_of t)) as [|it0 g] eqn:G; cbn.
    + rewrite dict_get_set, String.eqb_refl. reflexivity.
    + rewrite (Inv (artist_key_of t)), G. cbn.
      rewrite !map_app, fold_left_app. reflexivity.
  - rewrite app_nil_r.
    destruct (dict_mem ar (artist_key_of t)); [apply Inv|].
    rewrite dict_get_set, E. apply Inv.
Qed.

Lemma fold_add_to_artists_group items : forall done ar,
  artists_group done ar ->
  artists_group (done ++ items)
    (fold_left (fun ar it => add_to_artists ar (fst it) (snd it)) items ar).
Proof.
  induction items as [|[id t] items IH]; intros done ar Inv; cbn.
  - now rewrite app_nil_r.
  - replace (done ++ (id, t) :: items) with ((done ++ [(id, t)]) ++ items)
      by (rewrite <- app_assoc; reflexivity).
    apply IH, add_to_artists_group, Inv.
Qed.

Lemma organize_library_artists lib time key :
  dict_get (artists (_organize_library (mkState lib [] [] time))) key
  = artist_of_group (by_artist lib key).
Proof.
  unfold _organize_library. cbn [library albums artists indexed_time].
  match goal with
  | |- context [let (_, _) := ?x in _] => destruct x as [al ar] eqn:F
  end.
  assert (E : ar = fold_left
                     (fun ar it => add_to_artists ar (fst it) (snd it)) lib []).
  { change ar with (snd (al, ar)). rewrite <- F. apply fold_organize_artists. }
  cbn [artists]. rewrite E.
  apply (fold_add_to_artists_group lib [] []). intros k. reflexivity.
Qed.

Lemma set_add_In s x y : In y (set_add s x) <-> In y s \/ y = x.
Proof.
  unfold set_add. destruct (existsb (String.eqb x) s) eqn:E.
  - split; [now left|]. intros [H|H]; [exact H|]. subst y.
    apply existsb_exists in E as [z [Hz Ez]].
    apply String.eqb_eq in Ez. now subst z.
  - rewrite in_app_iff. cbn. split.
    + intros [H|[H|[]]]; [now left|now right].
    + intros [H|H]; [now left|right; now left].
Qed.

Lemma set_add_NoDup s x : NoDup s -> NoDup (set_add s x).
Proof.
  intros H. unfold set_add. destruct (existsb (String.eqb x) s) eqn:E;
    [exact H|].
  apply NoDup_app; [exact H|repeat constructor; intros []|].
  intros y Hy [Hx|[]]. subst y.
  assert (C : existsb (String.eqb x) s = true)
    by (apply existsb_exists; exists x; split;
        [exact Hy|apply String.eqb_refl]).
  congruence.
Qed.

Lemma fold_set_add l : forall s,
  NoDup s ->
  NoDup (fold_left set_add l s) /\
  forall y, In y (fold_left set_add l s) <-> In y s \/ In y l.
Proof.
  induction l as [|x l IH]; intros s Hs; cbn.
  - split; [exact Hs|]. intros y. tauto.
  - destruct (IH (set_add s x) (set_add_NoDup s x Hs)) as [Hn Hi].
    split; [exact Hn|]. intros y. rewrite Hi, set_add_In.
    split; intros H; intuition.
Qed.

(** X14. After an indexing run, an artist lists exactly the ids of the
    library tracks whose lower-cased artist is the key of the artist, in
    the order of the library; its set of albums holds, once each, exactly
    the album keys of these tracks, and each of them is an album of the
    library. *)
Theorem index_builds_consistent_artists env force s f s' f' key artist :
  index_library env force s f = (Returned true, s', f') ->
  andb (negb force) (fresh env s) = false ->
  dict_get (artists s') key = Some artist ->
  lower (ar_name artist) = key /\
  ar_tracks artist = map fst (by_artist (library s') key) /\
  (forall id,
     In id (ar_tracks artist) <->
     exists t, dict_get (library s') id = Some t /\ artist_key_of t = key) /\
  NoDup (ar_albums artist) /\
  (forall ak,
     In ak (ar_albums artist) <->
     exists id t, dict_get (library s') id = Some t /\
                  artist_key_of t = key /\ album_key_of t = ak) /\
  (forall ak, In ak (ar_albums artist) ->
     exists album, dict_get (albums s') ak = Some album).
Proof.
  intros H Hf Hget.
  destruct (index_library_ran _ _ _ _ _ _ H Hf) as [El [Ea Er]].
  rewrite El, Ea. rewrite Er in Hget. clear H Hf El Ea Er.
  pose proof (scan_NoDup env) as Hnd. revert Hnd Hget.
  generalize (scan env) as lib. intros lib Hnd Hget.
  rewrite organize_library_artists in Hget.
  destruct (by_artist lib key) as [|it g] eqn:G; [discriminate|].
  cbn [artist_of_group] in Hget. inversion Hget; subst artist. clear Hget.
  cbn [ar_name ar_albums ar_tracks].
  assert (Hit : In it (by_artist lib key)) by (rewrite G; now left).
  assert (Hin : forall id t,
            In (id, t) (by_artist lib key) <->
            dict_get lib id = Some t /\ artist_key_of t = key).
  { intros id t. unfold by_artist. rewrite filter_In. cbn [snd].
    rewrite String.eqb_eq. split; intros [A B]; split; auto.
    - now apply dict_get_In.
    - now apply dict_get_Some_In. }
  destruct (fold_set_add (map (fun it => album_key_of (snd it)) (it :: g)) []
              (NoDup_nil _)) as [Hn Hi].
  assert (Hal : forall ak,
            In ak (fold_left set_add
                     (map (fun it => album_key_of (snd it)) (it :: g)) []) <->
            exists id t, dict_get lib id = Some t /\
                         artist_key_of t = key /\ album_key_of t = ak).
  { intros ak. rewrite Hi, <- G. split.
    - intros [[]|Hm]. apply in_map_iff in Hm as [[id t] [E Hm]].
      exists id, t. apply Hin in Hm as [A B]. auto.
    - intros [id [t [A [B C]]]]. right. apply in_map_iff.
      exists (id, t). split; [exact C|]. apply Hin. auto. }
  split; [|split; [|split; [|split; [|split]]]].
  - apply filter_In in Hit as [_ Hit]. now apply String.eqb_eq in Hit.
  - reflexivity.
  - intros id.
    change (In id (map fst (it :: g)) <->
            exists t, dict_get lib id = Some t /\ artist_key_of t = key).
    rewrite <- G. split.
    + intros Hm. apply in_map_iff in Hm as [[id' t] [E Hm]].
      cbn in E. subst id'. exists t. now apply Hin.
    + intros [t Ht]. apply in_map_iff. exists (id, t).
      split; [reflexivity|]. now apply Hin.
  - exact Hn.
  - exact Hal.
  - intros ak Hak. apply Hal in Hak as [id [t [A [B C]]]].
    rewrite organize_library_albums.
    assert (Hd : In (id, t) (discovered lib ak)).
    { apply filter_In. split; [now apply dict_get_Some_In|].
      now apply String.eqb_eq. }
    destruct (discovered lib ak) as [|it0 g0]; [destruct Hd|].
    cbn. eexists. reflexivity.
Qed.

Lemma index_builds_consistent_artists_witness :
  exists artist,
    dict_get (artists sample_state) "artist" = Some artist /\
    NoDup (ar_albums artist).
Proof.
  assert (H : index_library sample_env false empty None
              = (Returned true, sample_state, sample_file))
    by (vm_compute; reflexivity).
  assert (Hf : andb (negb false) (fresh sample_env empty) = false)
    by (vm_compute; reflexivity).
  assert (Hg : dict_get (artists sample_state) "artist"
               = Some (mkArtist "Artist" ["artist - albumx"]
                         ["-8384710479420736860"; "-7887328263489356057"]))
    by (vm_compute; reflexivity).
  eexists. split; [exact Hg|].
  exact (proj1 (proj2 (proj2 (proj2
           (index_builds_consistent_artists sample_env false empty None
              sample_state sample_file "artist" _ H Hf Hg))))).
Defined.

Lemma organize_library_time lib t1 t2 :
  let s1 := _organize_library (mkState lib [] [] t1) in
  let s2 := _organize_library (mkState lib [] [] t2) in
  library s1 = library s2 /\ albums s1 = albums s2 /\ artists s1 = artists s2.
Proof.
  cbv zeta. unfold _organize_library.
  cbn [library albums artists indexed_time].
  match goal with
  | |- context [let (_, _) := ?x in _] => destruct x as [al ar]
  end.
  cbn [library albums artists]. auto.
Qed.

(** X15. A forced re-index on a mounted share rebuilds everything from the
    share alone: the state and the cache file it leaves do not depend on
    the state and the cache file it starts from. *)
Theorem forced_index_forgets_the_past env s f :
  mount_server env = true ->
  organize_fault env = None ->
  index_library env true s f = index_library env true empty None.
Proof.
  intros Hm Ho.
  rewrite !index_library_scans by (try assumption; reflexivity).
  destruct (organize_library_time (scan env) (indexed_time s)
              (indexed_time empty)) as [El [Ea Er]].
  cbv zeta. rewrite El, Ea, Er.
  unfold save_cache, MusicLibraryCache.save.
  destruct (Json.iterencode _). reflexivity.
Qed.

Lemma forced_index_forgets_the_past_witness :
  index_library sample_env true sample_state sample_file
  = index_library sample_env true empty None.
Proof.
  apply (forced_index_forgets_the_past sample_env sample_state sample_file);
    reflexivity.
Defined.

(** X16. With albums in memory, [search_album] neither indexes nor changes
    anything, and its results are exactly the summaries of the albums in
    which the lower-cased query occurs: in the key, in the lower-cased
    name or in the lower-cased artist. *)
Theorem search_finds_exactly_the_matches env query s f :
  albums s <> [] ->
  exists results,
    search_album env query s f = (Returned results, s, f) /\
    forall x,
      In x results <->
      exists key a,
        In (key, a) (albums s) /\ x = summary (key, a) /\
        (occurs (lower query) key \/
         occurs (lower query) (lower (al_name a)) \/
         occurs (lower query) (lower (al_artist a))).
Proof.
  intros Ha. exists (search_in (albums s) query). split.
  - unfold search_album. destruct (albums s); [contradiction|reflexivity].
  - intros x. unfold search_in. rewrite sorted_In, in_map_iff. split.
    + intros [[key a] [E H]]. apply filter_In in H as [Hin Hm].
      exists key, a. split; [exact Hin|]. split; [now symmetry|].
      unfold matches in Hm. cbn [fst snd] in Hm.
      rewrite !orb_true_iff, !contains_iff in Hm. exact Hm.
    + intros [key [a [Hin [E Hm]]]]. exists (key, a).
      split; [now symmetry|]. apply filter_In. split; [exact Hin|].
      unfold matches. cbn [fst snd].
      rewrite !orb_true_iff, !contains_iff. exact Hm.
Qed.

Lemma search_finds_exactly_the_matches_witness :
  exists results,
    search_album sample_env "ALBUMX" sample_state sample_file
    = (Returned results, sample_state, sample_file) /\
    forall x,
      In x results <->
      exists key a,
        In (key, a) (albums sample_state) /\ x = summary (key, a) /\
        (occurs (lower "ALBUMX") key \/
         occurs (lower "ALBUMX") (lower (al_name a)) \/
         occurs (lower "ALBUMX") (lower (al_artist a))).
Proof.
  assert (Ha : albums sample_state <> []) by (vm_compute; discriminate).
  exact (search_finds_exactly_the_matches sample_env "ALBUMX" sample_state
           sample_file Ha).
Defined.

Lemma contains_empty s0 : contains "" s0 = true.
Proof. destruct s0; reflexivity. Qed.

(** X17. The empty query matches everything: with albums in memory,
    [search_album] returns the summaries of all of them, each once. *)
Theorem empty_query_lists_every_album env s f :
  albums s <> [] ->
  exists results,
    search_album env "" s f = (Returned results, s, f) /\
    Permutation results (map summary (albums s)).
Proof.
  intros Ha. exists (search_in (albums s) ""). split.
  - unfold search_album. destruct (albums s); [contradiction|reflexivity].
  - unfold search_in. rewrite sorted_perm. cbn [lower].
    assert (E : filter (matches "") (albums s) = albums s).
    { clear Ha. induction (albums s) as [|ka r IH]; [reflexivity|].
      cbn [filter]. unfold matches at 1. rewrite contains_empty.
      cbn [orb]. now rewrite IH. }
    now rewrite E.
Qed.

Lemma empty_query_lists_every_album_witness :
  exists results,
    search_album sample_env "" sample_state sample_file
    = (Returned results, sample_state, sample_file) /\
    Permutation results (map summary (albums sample_state)).
Proof.
  assert (Ha : albums sample_state <> []) by (vm_compute; discriminate).
  exact (empty_query_lists_every_album sample_env sample_state sample_file Ha).
Defined.

(** X18. [get_album_tracks] returns nothing for a key that is no album;
    for an album it returns the tracks of those of its ids that are in the
    library, skipping the others: one track for each such id. *)
Theorem get_album_tracks_skips_unknown_ids s key :
  (dict_get (albums s) key = None -> get_album_tracks s key = []) /\
  forall album,
    dict_get (albums s) key = Some album ->
    Permutation (get_album_tracks s key)
      (flat_map (fun id => match dict_get (library s) id with
                           | Some t => [t]
                           | None => []
                           end) (al_tracks album)) /\
    (forall t,
       In t (get_album_tracks s key) <->
       exists id, In id (al_tracks album) /\ dict_get (library s) id = Some t) /\
    (length (get_album_tracks s key) <= length (al_tracks album))%nat.
Proof.
  unfold get_album_tracks. split.
  - intros H. now rewrite H.
  - intros album H. rewrite H. split; [apply sorted_perm|]. split.
    + intros t. rewrite sorted_In, in_flat_map. split.
      * intros [id [Hin Ht]]. exists id. split; [exact Hin|].
        destruct (dict_get (library s) id) as [t'|]; [|destruct Ht].
        destruct Ht as [Ht|[]]. now subst t'.
      * intros [id [Hin Ht]]. exists id. split; [exact Hin|].
        rewrite Ht. now left.
    + rewrite (Permutation_length (sorted_perm _ _)).
      induction (al_tracks album) as [|id ids IH]; [apply Nat.le_refl|].
      cbn [flat_map]. rewrite length_app. cbn [length].
      destruct (dict_get (library s) id); cbn [length]; lia.
Qed.

Lemma get_album_tracks_skips_unknown_ids_witness :
  get_album_tracks
    (mkState (library sample_state)
       [("k", mkAlbum "AlbumX" "Artist"
                ["no such id"; "-8384710479420736860"] 2)] [] 0) "k"
  = [mkTrack "/home/jay/music_server/Artist/AlbumX/01 - Song.flac"
       "01 - Song.flac" 1000 "AlbumX" "Artist" "" 0 180] /\
  get_album_tracks sample_state "no such album" = [].
Proof.
  split.
  - vm_compute. reflexivity.
  - apply (proj1 (get_album_tracks_skips_unknown_ids sample_state
                    "no such album")).
    vm_compute. reflexivity.
Defined.

Lemma dict_get_key_In {V} (d : dict V) k :
  In k (dict_keys d) -> exists v, dict_get d k = Some v.
Proof.
  intros H. destruct (dict_get d k) as [v|] eqn:E; [now exists v|].
  now apply dict_get_None_keys in E.
Qed.

Lemma dict_get_Some_key {V} (d : dict V) k v :
  dict_get d k = Some v -> In k (dict_keys d).
Proof.
  intros H. apply dict_get_Some_In in H. unfold dict_keys.
  apply in_map_iff. now exists (k, v).
Qed.

(** X19. With albums in memory, [get_random_album] indexes nothing and
    changes nothing; it returns the summary of an album of the library,
    whatever the generator draws, and every album of the library is
    returned for some draw. *)
Theorem random_album_is_an_album_of_the_library env s f :
  albums s <> [] ->
  (forall draw,
     exists key a,
       dict_get (albums s) key = Some a /\
       get_random_album env draw s f = (Done (Some (summary (key, a))), s, f)) /\
  (forall key a,
     dict_get (albums s) key = Some a ->
     exists draw,
       get_random_album env draw s f = (Done (Some (summary (key, a))), s, f)).
Proof.
  intros Ha.
  assert (E : forall draw,
            get_random_album env draw s f = (choose_album draw s, s, f)).
  { intros draw. unfold get_random_album.
    destruct (albums s); [contradiction|reflexivity]. }
  assert (Hk : exists k0 ks, dict_keys (albums s) = k0 :: ks).
  { destruct (albums s) as [|[k0 a0] r]; [contradiction|].
    now exists k0, (map fst r). }
  destruct Hk as [k0 [ks Hk]].
  split.
  - intros draw. rewrite E. unfold choose_album. rewrite Hk. cbv zeta.
    set (key := nth (draw mod length (k0 :: ks)) (k0 :: ks) k0).
    assert (Hin : In key (dict_keys (albums s))).
    { rewrite Hk. apply nth_In. apply Nat.mod_upper_bound. discriminate. }
    destruct (dict_get_key_In _ _ Hin) as [a Hget].
    exists key, a. split; [exact Hget|]. now rewrite Hget.
  - intros key a Hget. pose proof (dict_get_Some_key _ _ _ Hget) as Hin.
    rewrite Hk in Hin.
    destruct (In_nth _ _ k0 Hin) as [n [Hn En]].
    exists n. rewrite E. unfold choose_album. rewrite Hk. cbv zeta.
    rewrite (Nat.mod_small _ _ Hn), En, Hget. reflexivity.
Qed.

Lemma random_album_is_an_album_of_the_library_witness :
  exists key a,
    dict_get (albums sample_state) key = Some a /\
    get_random_album sample_env 7 sample_state sample_file
    = (Done (Some (summary (key, a))), sample_state, sample_file).
Proof.
  assert (Ha : albums sample_state <> []) by (vm_compute; discriminate).
  exact (proj1 (random_album_is_an_album_of_the_library sample_env
                  sample_state sample_file Ha) 7%nat).
Defined.

(** X20. On a mounted share in which the scan finds no track,
    [get_random_album] on an empty library indexes and then fails with
    [IndexError]: [random.choice] is called on the empty list of keys. *)
Theorem random_album_fails_on_empty_share env draw s f :
  albums s = [] ->
  mount_server env = true ->
  organize_fault env = None ->
  scan env = [] ->
  fst (fst (get_random_album env draw s f)) = Failed IndexError.
Proof.
  intros Ha Hm Ho Hs. unfold get_random_album. rewrite Ha.
  rewrite index_library_scans; try assumption.
  - rewrite Hs. reflexivity.
  - unfold fresh. rewrite Ha. cbn. now rewrite andb_false_r.
Qed.

Lemma random_album_fails_on_empty_share_witness :
  fst (fst (get_random_album bare_env 0 empty None)) = Failed IndexError.
Proof.
  assert (Hs : scan bare_env = []) by (vm_compute; reflexivity).
  exact (random_album_fails_on_empty_share bare_env 0 empty None
           eq_refl eq_refl eq_refl Hs).
Defined.

End LibraryExtras.

(** ** More on the cache *)

Section CacheExtras.
Import Json Config MusicLibrary.







End CacheExtras.

(** ** The controller and the settings *)

Section ControllerExtras.
Import Config MusicLibrary TelegramController.

(** X24. After an indexing run, [get_album_tracks] returns for every
    album as many tracks as its track count says, at least one, and each
    of them has the album's key. *)
Theorem indexed_album_has_all_its_tracks env force s f s' f' key album :
  index_library env force s f = (Returned true, s', f') ->
  andb (negb force) (fresh env s) = false ->
  dict_get (albums s') key = Some album ->
  get_album_tracks s' key <> [] /\
  Z.of_nat (length (get_album_tracks s' key)) = al_track_count album /\
  forall t, In t (get_album_tracks s' key) -> album_key_of t = key.
Proof.
  intros H Hf Hget.
  destruct (index_library_ran _ _ _ _ _ _ H Hf) as [El [Ea _]].
  set (s1 := _organize_library (mkState (scan env) [] [] (indexed_time s)))
    in *.
  assert (Hl1 : library s' = library s1)
    by (rewrite El; symmetry; apply organize_library_library).
  rewrite (get_album_tracks_fields s' s1 key Hl1 Ea).
  rewrite Ea in Hget.
  destruct (album_tracks_after_organize (scan env) (indexed_time s) key album
              (scan_NoDup env) Hget) as [Et Eg].
  destruct (organize_albums_consistent _ _ _ _ (scan_NoDup env) Hget)
    as [Hne [_ [Hc _]]].
  fold s1 in Eg. rewrite Eg.
  assert (Hlen : length (sorted t_track_number
                           (map snd (discovered (scan env) key)))
                 = length (al_tracks album)).
  { rewrite Et, !(Permutation_length (sorted_perm _ _)), !length_map.
    reflexivity. }
  split; [|split].
  - intros C. rewrite C in Hlen. destruct (al_tracks album); [now apply Hne|].
    discriminate.
  - now rewrite Hlen, Hc.
  - intros t Ht. apply sorted_In in Ht. apply in_map_iff in Ht as [it [E Ht]].
    apply filter_In in Ht as [_ Ht]. apply String.eqb_eq in Ht. now subst t.
Qed.

Lemma indexed_album_has_all_its_tracks_witness :
  Z.of_nat (length (get_album_tracks sample_state "artist - albumx")) = 2.
Proof.
  assert (H : index_library sample_env false empty None
              = (Returned true, sample_state, sample_file))
    by (vm_compute; reflexivity).
  assert (Hf : andb (negb false) (fresh sample_env empty) = false)
    by (vm_compute; reflexivity).
  assert (Hg : dict_get (albums sample_state) "artist - albumx"
               = Some (mkAlbum "AlbumX" "Artist"
                         ["-8384710479420736860"; "-7887328263489356057"] 2))
    by (vm_compute; reflexivity).
  exact (proj1 (proj2
           (indexed_album_has_all_its_tracks sample_env false empty None
              sample_state sample_file "artist - albumx" _ H Hf Hg))).
Defined.

Lemma not_authorized allowed user_id :
  allowed <> [] -> ~ In user_id allowed ->
  _is_authorized allowed user_id = false.
Proof.
  intros Hne Hnin. unfold _is_authorized.
  destruct allowed as [|a r]; [contradiction|]. cbn [length Nat.eqb orb].
  destruct (existsb (Z.eqb user_id) (a :: r)) eqn:E; [|reflexivity].
  apply existsb_exists in E as [y [Hy Ey]]. apply Z.eqb_eq in Ey.
  subst y. contradiction.
Qed.

(** X25. A user who is not on a non-empty list of allowed users changes
    nothing, whatever the command or the message: the only reply is the
    refusal, and the library, the cache file and the player stay as they
    are; nothing is searched, indexed or drawn. *)
Theorem unauthorized_user_changes_nothing allowed w user_id u c :
  allowed <> [] ->
  ~ In user_id allowed ->
  handle allowed w user_id u c = ([NotAuthorized], None, c).
Proof.
  intros Hne Hnin. pose proof (not_authorized allowed user_id Hne Hnin) as E.
  destruct u; cbn [handle];
    unfold cmd_start, cmd_help, cmd_play, cmd_pause, cmd_stop, cmd_next,
      cmd_prev, cmd_volume, cmd_status, cmd_random, cmd_rescan, on_message;
    rewrite E; reflexivity.
Qed.

Lemma unauthorized_user_changes_nothing_witness :
  let c := mkController sample_state sample_file (Player.init 70) in
  handle [42; 43] (mkWorld sample_env (Player.mkBackend 70 0) 0) 7
    (TextMessage "albumx") c
  = ([NotAuthorized], None, c).
Proof.
  intros c. apply (unauthorized_user_changes_nothing [42; 43]).
  - discriminate.
  - intros [H|[H|[]]]; discriminate H.
Defined.

Lemma ints_of_blank pieces :
  (forall piece, In piece pieces -> strip piece = "") ->
  ints_of pieces = Done [].
Proof.
  induction pieces as [|id rest IH]; intros H; [reflexivity|].
  cbn [ints_of]. rewrite (H id (in_eq _ _)). cbn [is_empty].
  apply IH. intros piece Hp. apply H. now right.
Qed.

(** X26. When the value of [ALLOWED_TELEGRAM_USERS] holds nothing but
    white space between its commas (in particular when the variable is
    not set), the list of allowed users is empty, and then every user is
    authorized. *)
Theorem blank_allow_list_admits_everyone value :
  (forall piece, In piece (split "," value) -> strip piece = "") ->
  exists allowed,
    ALLOWED_TELEGRAM_USERS value = Done allowed /\
    forall user_id, _is_authorized allowed user_id = true.
Proof.
  intros H. exists []. split; [|reflexivity].
  unfold ALLOWED_TELEGRAM_USERS. now apply ints_of_blank.
Qed.

Lemma blank_allow_list_admits_everyone_witness :
  exists allowed,
    ALLOWED_TELEGRAM_USERS " , " = Done allowed /\
    forall user_id, _is_authorized allowed user_id = true.
Proof.
  apply (blank_allow_list_admits_everyone " , ").
  intros piece [H|[H|[]]]; subst piece; reflexivity.
Defined.

Lemma get_album_tracks_ascending s key :
  ascending t_track_number (get_album_tracks s key).
Proof.
  unfold get_album_tracks. destruct (dict_get (albums s) key).
  - apply sorted_ascending.
  - constructor.
Qed.

Lemma load_and_play album t0 ts p :
  let tracks := t0 :: ts in
  let p' := snd (Player.play (snd (Player.load_playlist album tracks p))) in
  fst (Player.load_playlist album tracks p) = true /\
  Player.state p' = Player.PLAYING /\
  Player.current_track_index p' = 0 /\
  Player.current_album p' = Some album /\
  Player.current_playlist p' = tracks /\
  Player.vlc p'
  = Player.vlc p
    ++ [Player.list_player_stop; Player.media_list_remove_all]
    ++ map (fun t => Player.media_list_add_media (Player.pl_path t)) tracks
    ++ [Player.list_player_play_item_at_index 0].
Proof.
  destruct p as [st al ix pl alive running cb calls].
  cbv zeta. unfold Player.load_playlist, Player.stop, Player.with_state,
    Player.with_vlc.
  cbn [fst snd Player.current_playlist Player.state Player.current_album
       Player.current_track_index Player.vlc Player.monitor_thread_alive
       Player.monitor_running Player.status_callback].
  unfold Player.play.
  cbn [Player.current_playlist Player.is_paused Player.state].
  unfold Player.with_state, Player.with_vlc, Player._start_monitor.
  cbn [fst snd Player.current_playlist Player.state Player.current_album
       Player.current_track_index Player.vlc Player.monitor_thread_alive
       Player.monitor_running Player.status_callback].
  assert (E : forall (a : list Player.VlcCall) x y m z,
            ((a ++ [x]) ++ y :: m) ++ [z] = a ++ [x; y] ++ m ++ [z]).
  { intros a x0 y m z. rewrite <- !app_assoc. reflexivity. }
  destruct alive;
    cbn [Player.current_playlist Player.state Player.current_album
         Player.current_track_index Player.vlc];
    repeat (split; [reflexivity|]); apply E.
Qed.

(** X27. A message of an authorized user that matches exactly one album
    loads and plays it: the player is left playing the first track of a
    playlist that holds the album's tracks in ascending order of track
    number; the backend was stopped, its list emptied and filled with the
    paths of these tracks in that order, and started at index 0. *)
Theorem single_match_is_loaded_and_played allowed env user_id text c x s f :
  _is_authorized allowed user_id = true ->
  strip text <> "" ->
  search_album env (strip text) (music_library c) (cache_file c)
  = (Returned [x], s, f) ->
  get_album_tracks s (s_key x) <> [] ->
  let tracks := get_album_tracks s (s_key x) in
  exists p,
    on_message allowed env user_id text c
    = ([SearchingFor (strip text); FoundAlbum (s_name x) (s_artist x);
        NowPlaying (s_name x) (s_artist x) (map t_title (firstn 5 tracks))
          (more_than_five tracks)],
       None, mkController s f p) /\
    Player.state p = Player.PLAYING /\
    Player.current_track_index p = 0 /\
    Player.current_album p = Some (album_info x) /\
    Player.current_playlist p = map playlist_track tracks /\
    ascending t_track_number tracks /\
    Player.vlc p
    = Player.vlc (player c)
      ++ [Player.list_player_stop; Player.media_list_remove_all]
      ++ map (fun t => Player.media_list_add_media (t_path t)) tracks
      ++ [Player.list_player_play_item_at_index 0].
Proof.
  intros Ha Hq Hs Ht tracks.
  pose proof (get_album_tracks_ascending s (s_key x)) as Hasc.
  unfold on_message. rewrite Ha. cbn [negb].
  destruct (strip text) as [|ch q] eqn:Eq; [contradiction|].
  cbn [is_empty]. rewrite Hs.
  subst tracks.
  destruct (get_album_tracks s (s_key x)) as [|t0 ts]; [contradiction|].
  destruct (load_and_play (album_info x) (playlist_track t0)
              (map playlist_track ts) (player c))
    as [Hok [H1 [H2 [H3 [H4 H5]]]]].
  change (playlist_track t0 :: map playlist_track ts)
    with (map playlist_track (t0 :: ts)) in *.
  destruct (Player.load_playlist (album_info x)
              (map playlist_track (t0 :: ts)) (player c)) as [ok p1].
  cbn [fst snd] in *. subst ok.
  exists (snd (Player.play p1)).
  split; [reflexivity|].
  split; [exact H1|]. split; [exact H2|]. split; [exact H3|].
  split; [exact H4|]. split; [exact Hasc|].
  rewrite H5, map_map. reflexivity.
Qed.

Lemma single_match_is_loaded_and_played_witness :
  exists p,
    snd (on_message [] sample_env 7 "  AlbumX " 
           (mkController sample_state sample_file (Player.init 70)))
    = mkController sample_state sample_file p /\
    Player.state p = Player.PLAYING.
Proof.
  assert (Hs : search_album sample_env (strip "  AlbumX ")
                 (music_library
                    (mkController sample_state sample_file (Player.init 70)))
                 (cache_file
                    (mkController sample_state sample_file (Player.init 70)))
               = (Returned [mkSummary "artist - albumx" "AlbumX" "Artist" 2],
                  sample_state, sample_file))
    by (vm_compute; reflexivity).
  assert (Ht : get_album_tracks sample_state
                 (s_key (mkSummary "artist - albumx" "AlbumX" "Artist" 2))
               <> [])
    by (vm_compute; discriminate).
  assert (Hq : strip "  AlbumX " <> "") by (vm_compute; discriminate).
  destruct (single_match_is_loaded_and_played [] sample_env 7 "  AlbumX "
              (mkController sample_state sample_file (Player.init 70))
              _ sample_state sample_file eq_refl Hq Hs Ht)
    as [p [E [Hp _]]].
  exists p. split; [|exact Hp]. now rewrite E.
Defined.

(** X28. A message leaves the player as it was unless its sender is
    authorized and its text, stripped, matches exactly one album for
    which [get_album_tracks] returns a track. *)
Theorem message_touches_player_only_on_single_match
    allowed env user_id text c :
  player (snd (on_message allowed env user_id text c)) = player c \/
  (_is_authorized allowed user_id = true /\
   exists x s f,
     search_album env (strip text) (music_library c) (cache_file c)
     = (Returned [x], s, f) /\
     get_album_tracks s (s_key x) <> []).
Proof.
  unfold on_message.
  destruct (_is_authorized allowed user_id); [|now left]. cbn [negb].
  destruct (is_empty (strip text)); [now left|].
  destruct (search_album env (strip text) (music_library c) (cache_file c))
    as [[[results|e] s] f] eqn:Es; [|now left].
  destruct results as [|x [|y r]]; [now left| |now left].
  destruct (get_album_tracks s (s_key x)) as [|t0 ts] eqn:Et; [now left|].
  right. split; [reflexivity|]. exists x, s, f. split; [reflexivity|].
  rewrite Et. discriminate.
Qed.

Lemma is_digit_not_space c :
  is_digit c = true ->
  is_space c = false /\ c <> "-"%char /\ c <> "+"%char.
Proof.
  destruct c as [[] [] [] [] [] [] [] []]; intros H;
    try discriminate H; repeat split; try reflexivity; discriminate.
Qed.

Lemma digits_value s : forall acc seen,
  all_digits s = true -> 0 <= acc ->
  seen = true \/ s <> "" ->
  exists n, digits_then_spaces s acc seen = Some n /\ 0 <= n.
Proof.
  induction s as [|c r IH]; intros acc seen Hd Hacc Hs.
  - destruct Hs as [Hs|Hs]; [|contradiction].
    subst seen. exists acc. auto.
  - cbn [all_digits] in Hd. apply andb_true_iff in Hd as [Hc Hr].
    cbn [digits_then_spaces]. unfold is_digit in Hc. rewrite Hc.
    apply IH; [exact Hr|lia|now left].
Qed.

Lemma int_of_digits arg :
  isdigit arg = true -> exists n, int_of_str arg = Some n /\ 0 <= n.
Proof.
  unfold isdigit. destruct arg as [|c r]; [discriminate|].
  cbn [is_empty negb andb]. intros Hd.
  pose proof Hd as Hd'. cbn [all_digits] in Hd'.
  apply andb_true_iff in Hd' as [Hc _].
  destruct (is_digit_not_space c Hc) as [Hsp [Hm Hp]].
  assert (E : int_of_str (String c r)
              = digits_then_spaces (String c r) 0 false).
  { unfold int_of_str. cbn [lstrip]. rewrite Hsp.
    destruct c as [[] [] [] [] [] [] [] []]; try reflexivity;
      congruence. }
  rewrite E. apply digits_value; [exact Hd|lia|right; discriminate].
Qed.

(** X29. [/volume n] for a number [n] written in decimal digits sets the
    volume of the backend to [n] cut off at 100, yet the reply states [n]
    itself. *)
Theorem volume_reply_echoes_the_request allowed b user_id arg rest c :
  _is_authorized allowed user_id = true ->
  isdigit arg = true ->
  exists n,
    int_of_str arg = Some n /\ 0 <= n /\
    cmd_volume allowed b user_id (arg :: rest) c
    = ([VolumeSetTo n], None,
       with_player c
         (Player.with_vlc (player c) [Player.audio_set_volume (Z.min 100 n)])).
Proof.
  intros Ha Hd. destruct (int_of_digits arg Hd) as [n [En Hn]].
  exists n. split; [exact En|]. split; [exact Hn|].
  unfold cmd_volume. rewrite Ha, Hd, En. cbn [negb].
  unfold Player.set_volume.
  replace (Z.max 0 (Z.min 100 n)) with (Z.min 100 n) by lia.
  reflexivity.
Qed.

Lemma volume_reply_echoes_the_request_witness :
  let c := mkController sample_state sample_file (Player.init 70) in
  cmd_volume [] (Player.mkBackend 70 0) 7 ["150"] c
  = ([VolumeSetTo 150], None,
     with_player c
       (Player.with_vlc (player c) [Player.audio_set_volume 100])).
Proof.
  intros c.
  destruct (volume_reply_echoes_the_request [] (Player.mkBackend 70 0) 7
              "150" [] c eq_refl eq_refl) as [n [En [_ E]]].
  assert (Hn : n = 150) by (vm_compute in En; congruence).
  subst n. exact E.
Defined.

(** X30. When the share cannot be mounted, [/rescan] still reports that
    the scan is complete, with the number of albums that were in memory
    before, and leaves everything as it was. *)
Theorem rescan_reports_completion_without_mount allowed env user_id c :
  _is_authorized allowed user_id = true ->
  mount_server env = false ->
  cmd_rescan allowed env user_id c
  = ([Rescanning; ScanComplete (length (albums (music_library c)))], None, c).
Proof.
  intros Ha Hm. unfold cmd_rescan, index_library. rewrite Ha, Hm.
  cbn [negb]. now destruct c.
Qed.

Lemma rescan_reports_completion_without_mount_witness :
  let c := mkController sample_state sample_file (Player.init 70) in
  cmd_rescan [] (unmounted sample_env) 7 c
  = ([Rescanning; ScanComplete 1], None, c).
Proof.
  intros c.
  assert (Hl : length (albums (music_library c)) = 1%nat)
    by (vm_compute; reflexivity).
  pose proof (rescan_reports_completion_without_mount []
                (unmounted sample_env) 7 c eq_refl eq_refl) as E.
  rewrite Hl in E. exact E.
Defined.

End ControllerExtras.
